(** * RedisConnection: the asynchronous Redis client connection of drogon

    A shallow embedding of [nosql_lib/redis/src/RedisConnection.cc].

    The connection object is a record of its data members.  Every member
    function is a computation in a small monad [M] that threads the
    connection, may finish normally, by a C++ exception, or by undefined
    behaviour (a null dereference, [front()] of an empty queue, a failed
    [assert]), and appends to a trace the calls it makes into its
    collaborators: hiredis (the protocol engine), trantor's [Channel] (the
    bridge to the event loop) and the closures supplied by the user.

    The callbacks that hiredis makes back into the connection (the connect
    and disconnect lambdas, the reply lambda, the five interest hooks) are
    operations of their own; an execution is a list of operations run on the
    single loop thread.  Log statements are left out: they read the server
    address and touch nothing. *)

From stdpp Require Import base numbers list strings.
From Stdlib Require Import ZArith Lia Sorted.

(** ** Data *)

(** Modelled from the spec: the enumeration is declared in
    [RedisConnection.h], which is not among the sources.  The spec lists the
    four states; the code under study writes only [kConnected] and [kEnd]. *)
Inductive ConnectStatus := kUnconnected | kConnecting | kConnected | kEnd.

#[global] Instance ConnectStatus_eq_dec : EqDecision ConnectStatus.
Proof. solve_decision. Defined.

(** [trantor::InetAddress], as far as the connection reads it. *)
Record InetAddress := { toIp : string; toPort : Z }.

(** [trantor::EventLoop *]: the handle of the loop the connection lives on. *)
Definition EventLoop := nat.

(** [trantor::Channel]: the subscription object of one socket.  The
    subscriptions themselves live in trantor; calls on the channel are
    recorded in the trace. *)
Record Channel := { fd : Z }.

(** hiredis' [redisReply]. *)
#[local] Unset Elimination Schemes.
Inductive redisReply :=
  mkRedisReply { type : Z; integer : Z; str : string;
                 element : list redisReply }.
#[local] Set Elimination Schemes.

(** hiredis' [redisAsyncContext], as far as the connection touches it:
    [c.fd], [c.flags], and whether [ev.data] and the five hooks are set. *)
Record redisAsyncContext := { c_fd : Z; c_flags : Z; errstr : string;
                              ev_data : bool }.

(** [RedisResultImpl(result)] wraps the reply; [std::runtime_error(s)]
    carries its text. *)
Inductive RedisResult := RedisResultImpl (result : redisReply).

Inductive exception :=
| runtime_error (what : string)
| bad_function_call.

(** What a call of a user closure does to its caller. *)
Inductive outcome := Returns | Throws (e : exception).

(** A closure: its identity and what calling it on an argument does. *)
Record callable (A : Type) := { target : nat; call : A -> outcome }.
Arguments target {A} _.
Arguments call {A} _ _.

(** [std::function<void(A)>]: a closure, or empty. *)
Definition function (A : Type) := option (callable A).

(** Calls made into hiredis, trantor and user closures. *)
Inductive Event :=
| RedisAsyncConnect (ip : string) (port : Z)
| RedisAsyncSetConnectCallback
| RedisAsyncSetDisconnectCallback
| RedisAsyncHandleRead
| RedisAsyncHandleWrite
| RedisAsyncFormattedCommand (cmd : string) (len : nat)
| RedisAsyncDisconnect
| ChannelCreate (ch : Channel)
| ChannelSetReadCallback (ch : Channel)
| ChannelSetWriteCallback (ch : Channel)
| ChannelEnableWriting (ch : Channel)
| ChannelDisableWriting (ch : Channel)
| ChannelEnableReading (ch : Channel)
| ChannelDisableReading (ch : Channel)
| ChannelDisableAll (ch : Channel)
| ChannelRemove (ch : Channel)
| ChannelDestroy (ch : Channel)
| CallCommandCallback (f : function RedisResult) (r : RedisResult)
| CallExceptionCallback (f : function exception) (e : exception)
| CallConnectCallback (f : function Z) (status : Z)
| CallDisconnectCallback (f : function Z) (status : Z).

(** The data members.  A [std::queue] is a list with its front at the head. *)
Record RedisConnection := {
  serverAddr_ : InetAddress;
  password_ : string;
  loop_ : EventLoop;
  redisContext_ : option redisAsyncContext;
  channel_ : option Channel;
  connectCallback_ : function Z;
  disconnectCallback_ : function Z;
  commandCallbacks_ : list (function RedisResult);
  exceptionCallbacks_ : list (function exception);
  command_ : string;
  connected_ : ConnectStatus
}.

Definition with_redisContext (x : option redisAsyncContext)
    (c : RedisConnection) : RedisConnection :=
  {| serverAddr_ := serverAddr_ c; password_ := password_ c;
     loop_ := loop_ c; redisContext_ := x; channel_ := channel_ c;
     connectCallback_ := connectCallback_ c;
     disconnectCallback_ := disconnectCallback_ c;
     commandCallbacks_ := commandCallbacks_ c;
     exceptionCallbacks_ := exceptionCallbacks_ c;
     command_ := command_ c; connected_ := connected_ c |}.

Definition with_channel (x : option Channel)
    (c : RedisConnection) : RedisConnection :=
  {| serverAddr_ := serverAddr_ c; password_ := password_ c;
     loop_ := loop_ c; redisContext_ := redisContext_ c; channel_ := x;
     connectCallback_ := connectCallback_ c;
     disconnectCallback_ := disconnectCallback_ c;
     commandCallbacks_ := commandCallbacks_ c;
     exceptionCallbacks_ := exceptionCallbacks_ c;
     command_ := command_ c; connected_ := connected_ c |}.

Definition with_commandCallbacks (x : list (function RedisResult))
    (c : RedisConnection) : RedisConnection :=
  {| serverAddr_ := serverAddr_ c; password_ := password_ c;
     loop_ := loop_ c; redisContext_ := redisContext_ c;
     channel_ := channel_ c;
     connectCallback_ := connectCallback_ c;
     disconnectCallback_ := disconnectCallback_ c;
     commandCallbacks_ := x;
     exceptionCallbacks_ := exceptionCallbacks_ c;
     command_ := command_ c; connected_ := connected_ c |}.

Definition with_exceptionCallbacks (x : list (function exception))
    (c : RedisConnection) : RedisConnection :=
  {| serverAddr_ := serverAddr_ c; password_ := password_ c;
     loop_ := loop_ c; redisContext_ := redisContext_ c;
     channel_ := channel_ c;
     connectCallback_ := connectCallback_ c;
     disconnectCallback_ := disconnectCallback_ c;
     commandCallbacks_ := commandCallbacks_ c;
     exceptionCallbacks_ := x;
     command_ := command_ c; connected_ := connected_ c |}.

Definition with_command (x : string)
    (c : RedisConnection) : RedisConnection :=
  {| serverAddr_ := serverAddr_ c; password_ := password_ c;
     loop_ := loop_ c; redisContext_ := redisContext_ c;
     channel_ := channel_ c;
     connectCallback_ := connectCallback_ c;
     disconnectCallback_ := disconnectCallback_ c;
     commandCallbacks_ := commandCallbacks_ c;
     exceptionCallbacks_ := exceptionCallbacks_ c;
     command_ := x; connected_ := connected_ c |}.

Definition with_connected (x : ConnectStatus)
    (c : RedisConnection) : RedisConnection :=
  {| serverAddr_ := serverAddr_ c; password_ := password_ c;
     loop_ := loop_ c; redisContext_ := redisContext_ c;
     channel_ := channel_ c;
     connectCallback_ := connectCallback_ c;
     disconnectCallback_ := disconnectCallback_ c;
     commandCallbacks_ := commandCallbacks_ c;
     exceptionCallbacks_ := exceptionCallbacks_ c;
     command_ := command_ c; connected_ := x |}.

(** ** The monad of member functions *)

(** How a computation ends: normally, by an exception that unwinds to the
    caller, or by undefined behaviour. *)
Inductive completion (A : Type) :=
| Normal (a : A)
| Throw (e : exception)
| Undefined.
Arguments Normal {A} _.
Arguments Throw {A} _.
Arguments Undefined {A}.

Definition M (A : Type) : Type :=
  RedisConnection -> completion A * RedisConnection * list Event.

Definition ret {A} (a : A) : M A := fun c => (Normal a, c, []).

(** Sequencing: the members written before an exception stay written. *)
Definition bind {A B} (m : M A) (k : A -> M B) : M B := fun c =>
  match m c with
  | (Normal a, c1, t1) =>
      let '(r, c2, t2) := k a c1 in (r, c2, t1 ++ t2)
  | (Throw e, c1, t1) => (Throw e, c1, t1)
  | (Undefined, c1, t1) => (Undefined, c1, t1)
  end.

Notation "x <- m ;; k" := (bind m (fun x => k))
  (at level 100, m at next level, right associativity).
Notation "m ;; k" := (bind m (fun _ => k))
  (at level 100, right associativity).

Definition gets {A} (f : RedisConnection -> A) : M A :=
  fun c => (Normal (f c), c, []).
Definition modify (f : RedisConnection -> RedisConnection) : M unit :=
  fun c => (Normal tt, f c, []).
Definition emit (e : Event) : M unit := fun c => (Normal tt, c, [e]).
Definition undefined {A} : M A := fun c => (Undefined, c, []).

(** Dereferencing a pointer member: null is undefined behaviour. *)
Definition deref {A} (f : RedisConnection -> option A) : M A :=
  p <- gets f ;;
  match p with Some x => ret x | None => undefined end.

(** [q.front()]: undefined on an empty queue. *)
Definition front {A} (q : RedisConnection -> list A) : M A :=
  l <- gets q ;;
  match l with x :: _ => ret x | [] => undefined end.

(** [q.pop()]: undefined on an empty queue. *)
Definition pop {A} (q : RedisConnection -> list A)
    (set : list A -> RedisConnection -> RedisConnection) : M unit :=
  l <- gets q ;;
  match l with _ :: l' => modify (set l') | [] => undefined end.

(** [q.emplace(x)]: append at the back. *)
Definition emplace {A} (q : RedisConnection -> list A)
    (set : list A -> RedisConnection -> RedisConnection) (x : A) : M unit :=
  l <- gets q ;; modify (set (l ++ [x])).

(** [f(a)] on a [std::function]: an empty function throws
    [std::bad_function_call], a closure returns or throws as it decides.
    [invoke] records the call and makes it. *)
Definition call_function {A} (f : function A) (a : A) : completion unit :=
  match f with
  | None => Throw bad_function_call
  | Some k => match call k a with
              | Returns => Normal tt
              | Throws e => Throw e
              end
  end.

Definition invoke {A} (ev : function A -> A -> Event)
    (f : function A) (a : A) : M unit :=
  emit (ev f a) ;; (fun c => (call_function f a, c, [])).

(** [if (f) f(a);] *)
Definition invoke_if_set {A} (ev : function A -> A -> Event)
    (f : function A) (a : A) : M unit :=
  match f with
  | Some _ => invoke ev f a
  | None => ret tt
  end.

(** ** The member functions *)

(** Modelled from the spec: the default member initialisers of the class
    declaration in [RedisConnection.h], which is not among the sources
    (state Unconnected, no context, no channel, no handlers, empty queues).
    The constructor itself stores the address, the password and the loop;
    its [queueInLoop] of [startConnectionInLoop] is the operation [Start]
    below. *)
Definition RedisConnection_new (serverAddress : InetAddress)
    (password : string) (loop : EventLoop) : RedisConnection :=
  {| serverAddr_ := serverAddress; password_ := password; loop_ := loop;
     redisContext_ := None; channel_ := None;
     connectCallback_ := None; disconnectCallback_ := None;
     commandCallbacks_ := []; exceptionCallbacks_ := [];
     command_ := ""; connected_ := kUnconnected |}.

Section Hiredis.

(** The constants of hiredis that the code compares against; their values
    are hiredis' and are not fixed here. *)
Variable REDIS_OK : Z.
Variable REDIS_DISCONNECTING : Z.
Variable REDIS_REPLY_ERROR : Z.

Definition handleDisconnect : M unit :=
  modify (with_connected kEnd) ;;
  ch <- gets channel_ ;;
  match ch with
  | Some ch =>
      emit (ChannelDisableAll ch) ;;
      emit (ChannelRemove ch) ;;
      emit (ChannelDestroy ch) ;;
      modify (with_channel None)
  | None => ret tt
  end.

(** [startConnectionInLoop]; [fresh] is what [redisAsyncConnect] returns. *)
Definition startConnectionInLoop (fresh : option redisAsyncContext)
    : M unit :=
  old <- gets redisContext_ ;;
  match old with
  | Some _ => undefined
  | None =>
      addr <- gets serverAddr_ ;;
      emit (RedisAsyncConnect (toIp addr) (toPort addr)) ;;
      modify (with_redisContext fresh) ;;
      ctx <- deref redisContext_ ;;
      modify (with_redisContext
                (Some {| c_fd := c_fd ctx; c_flags := c_flags ctx;
                         errstr := errstr ctx; ev_data := true |})) ;;
      let ch := {| fd := c_fd ctx |} in
      emit (ChannelCreate ch) ;;
      modify (with_channel (Some ch)) ;;
      emit (ChannelSetReadCallback ch) ;;
      emit (ChannelSetWriteCallback ch) ;;
      emit RedisAsyncSetConnectCallback ;;
      emit RedisAsyncSetDisconnectCallback
  end.

(** The lambda given to [redisAsyncSetConnectCallback]. *)
Definition onConnect (status : Z) : M unit :=
  if negb (status =? REDIS_OK)%Z then
    handleDisconnect ;;
    f <- gets disconnectCallback_ ;;
    invoke_if_set CallDisconnectCallback f status
  else
    modify (with_connected kConnected) ;;
    f <- gets connectCallback_ ;;
    invoke_if_set CallConnectCallback f status.

(** The lambda given to [redisAsyncSetDisconnectCallback]. *)
Definition onDisconnect (status : Z) : M unit :=
  handleDisconnect ;;
  f <- gets disconnectCallback_ ;;
  invoke_if_set CallDisconnectCallback f status.

Definition addWrite : M unit :=
  ch <- deref channel_ ;; emit (ChannelEnableWriting ch).
Definition delWrite : M unit :=
  ch <- deref channel_ ;; emit (ChannelDisableWriting ch).
Definition addRead : M unit :=
  ch <- deref channel_ ;; emit (ChannelEnableReading ch).
Definition delRead : M unit :=
  ch <- deref channel_ ;; emit (ChannelDisableReading ch).
Definition cleanup : M unit := ret tt.

Definition handleRedisRead : M unit :=
  _ <- deref redisContext_ ;;
  emit RedisAsyncHandleRead.

Definition handleRedisWrite : M unit :=
  ctx <- deref redisContext_ ;;
  (if (c_flags ctx =? REDIS_DISCONNECTING)%Z then
     ch <- deref channel_ ;;
     emit (ChannelDisableAll ch) ;;
     emit (ChannelRemove ch)
   else ret tt) ;;
  emit RedisAsyncHandleWrite.

Definition sendCommandInloop (command : string)
    (callback : function RedisResult)
    (exceptionCallback : function exception) : M unit :=
  emplace commandCallbacks_ with_commandCallbacks callback ;;
  emplace exceptionCallbacks_ with_exceptionCallbacks exceptionCallback ;;
  modify (with_command command) ;;
  _ <- deref redisContext_ ;;
  emit (RedisAsyncFormattedCommand command (String.length command)).

(** [result] is a pointer: [None] is the null pointer, which the code
    dereferences after it has popped both queues. *)
Definition handleResult (result : option redisReply) : M unit :=
  commandCallback <- front commandCallbacks_ ;;
  pop commandCallbacks_ with_commandCallbacks ;;
  exceptionCallback <- front exceptionCallbacks_ ;;
  pop exceptionCallbacks_ with_exceptionCallbacks ;;
  match result with
  | None => undefined
  | Some reply =>
      if negb (type reply =? REDIS_REPLY_ERROR)%Z then
        invoke CallCommandCallback commandCallback (RedisResultImpl reply)
      else
        invoke CallExceptionCallback exceptionCallback
          (runtime_error (str reply))
  end.

(** The work that [disconnect] runs on the loop; the promise that wakes the
    calling thread is outside the connection's state. *)
Definition disconnectInLoop : M unit :=
  _ <- deref redisContext_ ;;
  emit RedisAsyncDisconnect.

(** ** Executions *)

(** What can happen to a connection on its loop: the scheduled start, the
    callbacks and hooks hiredis calls, the two readiness handlers, a send, a
    decoded reply, the loop side of [disconnect], and hiredis changing the
    flags of its own context. *)
Inductive Op :=
| Start (fresh : option redisAsyncContext)
| OnConnect (status : Z)
| OnDisconnect (status : Z)
| AddWrite
| DelWrite
| AddRead
| DelRead
| Cleanup
| HandleRedisRead
| HandleRedisWrite
| SendCommandInloop (command : string) (callback : function RedisResult)
    (exceptionCallback : function exception)
| HandleResult (result : option redisReply)
| DisconnectInLoop
| EngineFlags (flags : Z).

Definition engineFlags (flags : Z) : M unit :=
  modify (fun c =>
    match redisContext_ c with
    | Some ctx =>
        with_redisContext
          (Some {| c_fd := c_fd ctx; c_flags := flags;
                   errstr := errstr ctx; ev_data := ev_data ctx |}) c
    | None => c
    end).

Definition step (op : Op) : M unit :=
  match op with
  | Start fresh => startConnectionInLoop fresh
  | OnConnect status => onConnect status
  | OnDisconnect status => onDisconnect status
  | AddWrite => addWrite
  | DelWrite => delWrite
  | AddRead => addRead
  | DelRead => delRead
  | Cleanup => cleanup
  | HandleRedisRead => handleRedisRead
  | HandleRedisWrite => handleRedisWrite
  | SendCommandInloop command callback exceptionCallback =>
      sendCommandInloop command callback exceptionCallback
  | HandleResult result => handleResult result
  | DisconnectInLoop => disconnectInLoop
  | EngineFlags flags => engineFlags flags
  end.

(** One record per operation that ran: how it ended, the connection it left
    and the calls it made.  An exception leaves the operation and the loop
    goes on; undefined behaviour ends the execution. *)
Definition Ran : Type := completion unit * RedisConnection * list Event.

Definition after (x : Ran) : RedisConnection := snd (fst x).
Definition calls (x : Ran) : list Event := snd x.

Fixpoint run (ops : list Op) (c : RedisConnection) : list Ran :=
  match ops with
  | [] => []
  | op :: ops' =>
      match step op c with
      | (Undefined, _, _) => []
      | (r, c', t) => (r, c', t) :: run ops' c'
      end
  end.

(** All calls of an execution, in order. *)
Definition trace (l : list Ran) : list Event := concat (map calls l).

(** The connection at the end of an execution. *)
Definition final (c : RedisConnection) (l : list Ran) : RedisConnection :=
  default c (last (map after l)).

(** The lifecycle states an execution goes through, the initial one first. *)
Definition observed (ops : list Op) (c : RedisConnection)
    : list ConnectStatus :=
  connected_ c :: map (fun x => connected_ (after x)) (run ops c).

(** The same with repetitions of a state dropped: the state changes. *)
Fixpoint changes (l : list ConnectStatus) : list ConnectStatus :=
  match l with
  | [] => []
  | s :: l' =>
      match l' with
      | [] => [s]
      | s' :: _ => if decide (s = s') then changes l' else s :: changes l'
      end
  end.

(** Position of a state in Unconnected, Connecting, Connected, Ended. *)
Definition rank (s : ConnectStatus) : nat :=
  match s with
  | kUnconnected => 0
  | kConnecting => 1
  | kConnected => 2
  | kEnd => 3
  end.

(** How hiredis uses the two lifecycle callbacks: the connect callback is
    called at most once, and before any disconnect callback.
    [connect_pending] holds while neither has been called. *)
Fixpoint engine_protocol_from (connect_pending : bool) (ops : list Op)
    : bool :=
  match ops with
  | [] => true
  | OnConnect _ :: ops' => connect_pending && engine_protocol_from false ops'
  | OnDisconnect _ :: ops' => engine_protocol_from false ops'
  | _ :: ops' => engine_protocol_from connect_pending ops'
  end.

Definition engine_protocol (ops : list Op) : bool :=
  engine_protocol_from true ops.

(** A command as given to [sendCommandInloop]. *)
Record Sent := {
  sent_command : string;
  sent_callback : function RedisResult;
  sent_exceptionCallback : function exception
}.

Definition send (s : Sent) : Op :=
  SendCommandInloop (sent_command s) (sent_callback s)
    (sent_exceptionCallback s).

(** The engine hands a decoded reply to the connection. *)
Definition deliver (r : redisReply) : Op := HandleResult (Some r).

(** The continuation call that answers command [s] with reply [r]. *)
Definition fired (s : Sent) (r : redisReply) : Event :=
  if (type r =? REDIS_REPLY_ERROR)%Z
  then CallExceptionCallback (sent_exceptionCallback s)
         (runtime_error (str r))
  else CallCommandCallback (sent_callback s) (RedisResultImpl r).

Definition is_continuation (e : Event) : bool :=
  match e with
  | CallCommandCallback _ _ | CallExceptionCallback _ _ => true
  | _ => false
  end.

Definition continuations (t : list Event) : list Event :=
  List.filter is_continuation t.

(** The commands sent and not yet answered, oldest first, kept beside the
    execution: a send adds at the back, a reply removes the oldest. *)
Definition track (pend : list Sent) (op : Op) : list Sent :=
  match op with
  | SendCommandInloop command callback exceptionCallback =>
      pend ++ [{| sent_command := command; sent_callback := callback;
                  sent_exceptionCallback := exceptionCallback |}]
  | HandleResult _ => tail pend
  | _ => pend
  end.

Definition outstanding (ops : list Op) : list Sent :=
  fold_left track ops [].

(** ** Notions used to state the properties *)

(** The calls [handleDisconnect] makes on the channel it releases. *)
Definition teardown (c : RedisConnection) : list Event :=
  match channel_ c with
  | Some ch => [ChannelDisableAll ch; ChannelRemove ch; ChannelDestroy ch]
  | None => []
  end.

(** The call of a lifecycle handler, made only when the handler is set. *)
Definition handler_call (ev : function Z -> Z -> Event) (f : function Z)
    (status : Z) : list Event :=
  match f with
  | Some _ => [ev f status]
  | None => []
  end.

Definition is_connect_call (e : Event) : bool :=
  match e with CallConnectCallback _ _ => true | _ => false end.

Definition is_disconnect_call (e : Event) : bool :=
  match e with CallDisconnectCallback _ _ => true | _ => false end.

(** The call into the engine that a send makes. *)
Definition submitted (s : Sent) : Event :=
  RedisAsyncFormattedCommand (sent_command s) (String.length (sent_command s)).

(** [s'] is not before [s] in the lifecycle. *)
Definition no_earlier (s s' : ConnectStatus) : Prop := rank s <= rank s'.

Definition lifecycle : list ConnectStatus :=
  [kUnconnected; kConnecting; kConnected; kEnd].

Definition failed_connect : list ConnectStatus :=
  [kUnconnected; kConnecting; kEnd].

Definition states (ops : list Op) (c : RedisConnection)
    : list ConnectStatus :=
  map (fun x => connected_ (after x)) (run ops c).

(** Kinds of operation. *)
Definition is_send (op : Op) : bool :=
  match op with SendCommandInloop _ _ _ => true | _ => false end.

Definition is_reply (op : Op) : bool :=
  match op with HandleResult _ => true | _ => false end.

Definition is_lifecycle_callback (op : Op) : bool :=
  match op with OnConnect _ | OnDisconnect _ => true | _ => false end.

Definition sends (ops : list Op) : nat := length (List.filter is_send ops).
Definition replies (ops : list Op) : nat := length (List.filter is_reply ops).

(** The operations of [ops] that ran: all of them, or those before the one
    that hit undefined behaviour. *)
Definition ran (ops : list Op) (c : RedisConnection) : list Op :=
  take (length (run ops c)) ops.

(** The continuation calls that FIFO matching prescribes for [ops], with
    [pend] the commands outstanding at the start: each reply goes to the
    oldest outstanding command. *)
Fixpoint answers (pend : list Sent) (ops : list Op) : list Event :=
  match ops with
  | [] => []
  | op :: ops' =>
      match op, pend with
      | HandleResult (Some r), s :: _ =>
          fired s r :: answers (track pend op) ops'
      | _, _ => answers (track pend op) ops'
      end
  end.

(** The channel, when there is one, is over the socket of the engine
    context. *)
Definition socket_bound (c : RedisConnection) : bool :=
  match channel_ c with
  | Some ch =>
      match redisContext_ c with
      | Some ctx => (fd ch =? c_fd ctx)%Z
      | None => false
      end
  | None => true
  end.

(** The members no member function assigns. *)
Definition same_setup (c c' : RedisConnection) : Prop :=
  serverAddr_ c' = serverAddr_ c
  /\ password_ c' = password_ c
  /\ loop_ c' = loop_ c
  /\ connectCallback_ c' = connectCallback_ c
  /\ disconnectCallback_ c' = disconnectCallback_ c.

(** ** Sample data, used to run the definitions *)

Definition server : InetAddress := {| toIp := "127.0.0.1"; toPort := 6379 |}.

Definition context0 : redisAsyncContext :=
  {| c_fd := 7; c_flags := 0; errstr := ""; ev_data := false |}.

Definition quiet {A} (n : nat) : function A :=
  Some {| target := n; call := fun _ => Returns |}.

Definition failing {A} (n : nat) : function A :=
  Some {| target := n; call := fun _ => Throws (runtime_error "boom") |}.

Definition reply_ok : redisReply :=
  {| type := 5; integer := 0; str := "OK"; element := [] |}.

Definition reply_err : redisReply :=
  {| type := 6; integer := 0;
     str := "ERR wrong number of arguments"; element := [] |}.

(** A fresh connection with both lifecycle handlers set. *)
Definition fresh_conn : RedisConnection :=
  {| serverAddr_ := server; password_ := ""; loop_ := 0;
     redisContext_ := None; channel_ := None;
     connectCallback_ := quiet 1; disconnectCallback_ := quiet 2;
     commandCallbacks_ := []; exceptionCallbacks_ := [];
     command_ := ""; connected_ := kUnconnected |}.

(** The same after [startConnectionInLoop]. *)
Definition started_conn : RedisConnection :=
  with_channel (Some {| fd := 7 |})
    (with_redisContext
       (Some {| c_fd := 7; c_flags := 0; errstr := ""; ev_data := true |})
       fresh_conn).

(** The same after the engine's disconnect callback has run. *)
Definition ended_conn : RedisConnection :=
  with_channel None (with_connected kEnd started_conn).

(** The same while the engine is disconnecting and nothing else: its flags
    word is hiredis' [REDIS_DISCONNECTING], 4. *)
Definition closing_conn : RedisConnection :=
  with_redisContext
    (Some {| c_fd := 7; c_flags := 4; errstr := ""; ev_data := true |})
    started_conn.

(** The same while the engine is connected and disconnecting: hiredis'
    [REDIS_CONNECTED], 2, and [REDIS_DISCONNECTING], 4, are both set. *)
Definition draining_conn : RedisConnection :=
  with_redisContext
    (Some {| c_fd := 7; c_flags := 6; errstr := ""; ev_data := true |})
    started_conn.

(** Two commands pending; the first one's success continuation throws. *)
Definition busy_conn : RedisConnection :=
  with_exceptionCallbacks [quiet 20; quiet 21]
    (with_commandCallbacks [failing 10; quiet 11] started_conn).

Definition get_a : Sent :=
  {| sent_command := "GET a"; sent_callback := quiet 10;
     sent_exceptionCallback := quiet 20 |}.

Definition get_b : Sent :=
  {| sent_command := "GET"; sent_callback := quiet 11;
     sent_exceptionCallback := quiet 21 |}.

Definition get_c : Sent :=
  {| sent_command := "GET c"; sent_callback := failing 12;
     sent_exceptionCallback := quiet 22 |}.

(** A whole session: start, connect, one command answered, disconnect. *)
Definition session : list Op :=
  [Start (Some context0); AddWrite; HandleRedisWrite; OnConnect 0;
   send get_a; HandleRedisWrite; HandleRedisRead; deliver reply_ok;
   DisconnectInLoop; EngineFlags 6; HandleRedisWrite; OnDisconnect 0].

(** Sends and replies interleaved. *)
Definition interleaved : list Op :=
  [send get_a; send get_b; deliver reply_ok; send get_c; deliver reply_err;
   deliver reply_ok].

(** ** Single calls *)

Ltac unfold_M :=
  unfold handleResult, handleDisconnect, onConnect, onDisconnect,
    handleRedisWrite, handleRedisRead, sendCommandInloop, disconnectInLoop,
    startConnectionInLoop, addWrite, delWrite, addRead, delRead, cleanup,
    engineFlags, invoke_if_set, invoke, front, pop, emplace, deref, bind,
    gets, modify, emit, undefined, ret.

Lemma handleDisconnect_eq c :
  handleDisconnect c
  = (Normal tt, with_channel None (with_connected kEnd c), teardown c).
Proof.
  unfold_M. unfold teardown. destruct c as [? ? ? ? [ch|] ? ? ? ? ? ?]; reflexivity.
Qed.

(** C4.  [handleDisconnect] ends normally, sets the state to Ended, and, when
    the channel exists, disables all its subscriptions, removes it from the
    loop and releases it, in that order.  Every other member is as before:
    both continuation queues are unchanged and no continuation is called. *)
Theorem handleDisconnect_frame (c : RedisConnection) :
  handleDisconnect c
  = (Normal tt,
     {| serverAddr_ := serverAddr_ c; password_ := password_ c;
        loop_ := loop_ c; redisContext_ := redisContext_ c;
        channel_ := None;
        connectCallback_ := connectCallback_ c;
        disconnectCallback_ := disconnectCallback_ c;
        commandCallbacks_ := commandCallbacks_ c;
        exceptionCallbacks_ := exceptionCallbacks_ c;
        command_ := command_ c; connected_ := kEnd |},
     match channel_ c with
     | Some ch => [ChannelDisableAll ch; ChannelRemove ch; ChannelDestroy ch]
     | None => []
     end)
  /\ continuations (snd (handleDisconnect c)) = [].
Proof.
  rewrite handleDisconnect_eq. split; [reflexivity|].
  unfold teardown. simpl. destruct (channel_ c); reflexivity.
Qed.

Lemma handleResult_eq (result : redisReply) (c : RedisConnection) k ks e es :
  commandCallbacks_ c = k :: ks ->
  exceptionCallbacks_ c = e :: es ->
  handleResult (Some result) c
  = if (type result =? REDIS_REPLY_ERROR)%Z
    then (call_function e (runtime_error (str result)),
          with_exceptionCallbacks es (with_commandCallbacks ks c),
          [CallExceptionCallback e (runtime_error (str result))])
    else (call_function k (RedisResultImpl result),
          with_exceptionCallbacks es (with_commandCallbacks ks c),
          [CallCommandCallback k (RedisResultImpl result)]).
Proof.
  intros Hk He. destruct c; simpl in Hk, He; subst. unfold_M. cbn.
  destruct (type result =? REDIS_REPLY_ERROR)%Z; cbn;
    [destruct (call_function e _)|destruct (call_function k _)]; reflexivity.
Qed.

(** C1.  With a command pending, [handleResult] removes the front of both
    queues and makes exactly one call, a continuation of the removed entry:
    its failure continuation with the reply's text when the reply is an
    error reply, its success continuation with the wrapped reply otherwise.
    It ends the way that call ends. *)
Theorem handleResult_dispatch (result : redisReply) (c : RedisConnection)
    k ks e es :
  commandCallbacks_ c = k :: ks ->
  exceptionCallbacks_ c = e :: es ->
  let '(r, c', t) := handleResult (Some result) c in
  commandCallbacks_ c' = ks
  /\ exceptionCallbacks_ c' = es
  /\ c' = with_exceptionCallbacks es (with_commandCallbacks ks c)
  /\ if (type result =? REDIS_REPLY_ERROR)%Z
     then t = [CallExceptionCallback e (runtime_error (str result))]
          /\ r = call_function e (runtime_error (str result))
     else t = [CallCommandCallback k (RedisResultImpl result)]
          /\ r = call_function k (RedisResultImpl result).
Proof.
  intros Hk He. rewrite (handleResult_eq result c k ks e es Hk He).
  destruct (type result =? REDIS_REPLY_ERROR)%Z; destruct c; cbn; auto.
Qed.

Lemma invoke_if_set_eq ev (f : function Z) status c :
  invoke_if_set ev f status c
  = (match f with Some _ => call_function f status | None => Normal tt end,
     c, handler_call ev f status).
Proof.
  unfold_M. destruct f as [h|]; cbn; [|reflexivity].
  destruct (call h status); reflexivity.
Qed.

Lemma onDisconnect_eq status c :
  onDisconnect status c
  = (match disconnectCallback_ c with
     | Some _ => call_function (disconnectCallback_ c) status
     | None => Normal tt
     end,
     with_channel None (with_connected kEnd c),
     teardown c ++ handler_call CallDisconnectCallback
                     (disconnectCallback_ c) status).
Proof.
  unfold onDisconnect, bind at 1. rewrite handleDisconnect_eq.
  unfold bind, gets. rewrite invoke_if_set_eq. cbn.
  destruct c; reflexivity.
Qed.

Lemma onConnect_eq status c :
  onConnect status c
  = if (status =? REDIS_OK)%Z
    then (match connectCallback_ c with
          | Some _ => call_function (connectCallback_ c) status
          | None => Normal tt
          end,
          with_connected kConnected c,
          handler_call CallConnectCallback (connectCallback_ c) status)
    else onDisconnect status c.
Proof.
  unfold onConnect. destruct (status =? REDIS_OK)%Z; cbn [negb]; [|reflexivity].
  unfold bind, gets, modify. rewrite invoke_if_set_eq. destruct c; reflexivity.
Qed.

(** C6.  The connect callback.  With the success status the state becomes
    Connected, nothing else changes, and the connect handler, when the user
    has set one, is called once with that status.  With any other status
    [handleDisconnect] runs (state Ended, channel torn down and released)
    and then the disconnect handler, when set, is called once with the
    status; the connect handler is not called. *)
Theorem onConnect_outcome (status : Z) (c : RedisConnection) :
  let '(_, c', t) := onConnect status c in
  if (status =? REDIS_OK)%Z
  then connected_ c' = kConnected
       /\ c' = with_connected kConnected c
       /\ t = match connectCallback_ c with
              | Some h => [CallConnectCallback (Some h) status]
              | None => []
              end
       /\ List.filter is_disconnect_call t = []
  else c' = snd (fst (handleDisconnect c))
       /\ connected_ c' = kEnd
       /\ channel_ c' = None
       /\ t = snd (handleDisconnect c)
              ++ match disconnectCallback_ c with
                 | Some h => [CallDisconnectCallback (Some h) status]
                 | None => []
                 end
       /\ List.filter is_connect_call t = [].
Proof.
  rewrite onConnect_eq. destruct (status =? REDIS_OK)%Z.
  - destruct (connectCallback_ c); cbn; auto.
  - rewrite onDisconnect_eq, handleDisconnect_eq. cbn.
    unfold teardown. destruct (channel_ c), (disconnectCallback_ c); cbn; auto.
Qed.

(** The on-writable handler, by the test it makes.  When the flags word of
    the engine's context equals [REDIS_DISCONNECTING], the channel first has
    all its subscriptions disabled and is removed from the loop, and then
    the engine's write pump is called; for any other flags word the write
    pump is the only call.  The connection's members are unchanged either
    way. *)
Lemma handleRedisWrite_order (c : RedisConnection) ctx :
  redisContext_ c = Some ctx ->
  (c_flags ctx = REDIS_DISCONNECTING ->
   forall ch, channel_ c = Some ch ->
     handleRedisWrite c
     = (Normal tt, c,
        [ChannelDisableAll ch; ChannelRemove ch; RedisAsyncHandleWrite]))
  /\ (c_flags ctx <> REDIS_DISCONNECTING ->
      handleRedisWrite c = (Normal tt, c, [RedisAsyncHandleWrite])).
Proof.
  intros Hctx. split.
  - intros Hf ch Hch. unfold_M. rewrite Hctx. cbn.
    apply Z.eqb_eq in Hf. rewrite Hf, Hch. reflexivity.
  - intros Hf. unfold_M. rewrite Hctx. cbn.
    apply Z.eqb_neq in Hf. rewrite Hf. reflexivity.
Qed.

(** C8.  The on-writable handler compares the whole flags word of the
    engine's context with [REDIS_DISCONNECTING].  So when the engine is
    disconnecting and any other flag is set as well (the disconnecting bits
    are all in the word, and the word is not [REDIS_DISCONNECTING] alone),
    the handler does not disable the channel's subscriptions and does not
    remove the channel: the write pump is the only call it makes. *)
Theorem handleRedisWrite_ignores_disconnecting_bit (c : RedisConnection)
    ctx :
  redisContext_ c = Some ctx ->
  Z.land (c_flags ctx) REDIS_DISCONNECTING = REDIS_DISCONNECTING ->
  c_flags ctx <> REDIS_DISCONNECTING ->
  handleRedisWrite c = (Normal tt, c, [RedisAsyncHandleWrite])
  /\ List.filter
       (fun e => match e with
                 | ChannelDisableAll _ | ChannelRemove _ => true
                 | _ => false
                 end)
       (snd (handleRedisWrite c)) = [].
Proof.
  intros Hctx _ Hne.
  assert (H : handleRedisWrite c = (Normal tt, c, [RedisAsyncHandleWrite])).
  { unfold_M. rewrite Hctx. cbn. apply Z.eqb_neq in Hne. rewrite Hne.
    reflexivity. }
  rewrite H. split; reflexivity.
Qed.

(** C9.  [handleResult] has removed the front of both queues when it calls
    the continuation: the call is made on the connection with the entry
    already gone.  So whatever the head continuations are and however the
    call ends, by return or by exception, the connection left behind is the
    same: the remaining entries [ks] and [es], in their order, and every
    other member untouched. *)
Theorem handleResult_fault_isolated (result : redisReply)
    (c : RedisConnection) k ks e es :
  commandCallbacks_ c = k :: ks ->
  exceptionCallbacks_ c = e :: es ->
  let popped := with_exceptionCallbacks es (with_commandCallbacks ks c) in
  handleResult (Some result) c
  = (if negb (type result =? REDIS_REPLY_ERROR)%Z
     then invoke CallCommandCallback k (RedisResultImpl result)
     else invoke CallExceptionCallback e (runtime_error (str result))) popped
  /\ after (handleResult (Some result) c) = popped
  /\ commandCallbacks_ (after (handleResult (Some result) c)) = ks
  /\ exceptionCallbacks_ (after (handleResult (Some result) c)) = es
  /\ forall k' e',
       after (handleResult (Some result)
                (with_exceptionCallbacks (e' :: es)
                   (with_commandCallbacks (k' :: ks) c)))
       = after (handleResult (Some result) c).
Proof.
  intros Hk He popped.
  assert (Hafter : forall c0 k0 e0,
             commandCallbacks_ c0 = k0 :: ks ->
             exceptionCallbacks_ c0 = e0 :: es ->
             after (handleResult (Some result) c0)
             = with_exceptionCallbacks es (with_commandCallbacks ks c0)).
  { intros c0 k0 e0 H1 H2.
    rewrite (handleResult_eq result c0 k0 ks e0 es H1 H2).
    destruct (type result =? REDIS_REPLY_ERROR)%Z; reflexivity. }
  repeat split.
  - rewrite (handleResult_eq result c k ks e es Hk He).
    unfold invoke, bind, emit. subst popped.
    destruct (type result =? REDIS_REPLY_ERROR)%Z; cbn;
      [destruct (call_function e _)|destruct (call_function k _)];
      reflexivity.
  - apply (Hafter c k e Hk He).
  - rewrite (Hafter c k e Hk He). destruct c; reflexivity.
  - rewrite (Hafter c k e Hk He). destruct c; reflexivity.
  - intros k' e'. rewrite (Hafter c k e Hk He).
    rewrite (Hafter _ k' e'); destruct c; reflexivity.
Qed.

(** C7, as the code has it.  Once the state is Ended and the channel is
    released, the disconnect callback, and the connect callback with a
    status other than the success status, leave every member of the
    connection as it is; they still call the disconnect handler, when one is
    set, once with the status they were given. *)
Theorem lifecycle_callbacks_after_end (status : Z) (c : RedisConnection) :
  connected_ c = kEnd ->
  channel_ c = None ->
  after (onDisconnect status c) = c
  /\ calls (onDisconnect status c)
     = match disconnectCallback_ c with
       | Some h => [CallDisconnectCallback (Some h) status]
       | None => []
       end
  /\ (status <> REDIS_OK -> onConnect status c = onDisconnect status c).
Proof.
  intros Hs Hch. rewrite onDisconnect_eq. unfold after, calls, teardown.
  cbn. rewrite Hch. repeat split.
  - destruct c; cbn in *; subst; reflexivity.
  - destruct (disconnectCallback_ c); reflexivity.
  - intros Hne. rewrite onConnect_eq. apply Z.eqb_neq in Hne.
    rewrite Hne, onDisconnect_eq. unfold teardown. rewrite Hch. reflexivity.
Qed.

(** ** Executions: what one operation does to the state and the queues *)

Ltac split_matches :=
  repeat match goal with
    | |- context [match ?x with _ => _ end] => destruct x eqn:?; cbn in *
    end.

Lemma step_effect op c r c' t :
  step op c = (r, c', t) ->
  r <> Undefined ->
  match op with
  | SendCommandInloop _ callback exceptionCallback =>
      commandCallbacks_ c' = commandCallbacks_ c ++ [callback]
      /\ exceptionCallbacks_ c' = exceptionCallbacks_ c ++ [exceptionCallback]
      /\ connected_ c' = connected_ c
      /\ redisContext_ c' = redisContext_ c
  | HandleResult _ =>
      commandCallbacks_ c' = tail (commandCallbacks_ c)
      /\ exceptionCallbacks_ c' = tail (exceptionCallbacks_ c)
      /\ commandCallbacks_ c <> []
      /\ exceptionCallbacks_ c <> []
      /\ connected_ c' = connected_ c
  | OnConnect _ =>
      commandCallbacks_ c' = commandCallbacks_ c
      /\ exceptionCallbacks_ c' = exceptionCallbacks_ c
      /\ (connected_ c' = kConnected \/ connected_ c' = kEnd)
  | OnDisconnect _ =>
      commandCallbacks_ c' = commandCallbacks_ c
      /\ exceptionCallbacks_ c' = exceptionCallbacks_ c
      /\ connected_ c' = kEnd
  | _ =>
      commandCallbacks_ c' = commandCallbacks_ c
      /\ exceptionCallbacks_ c' = exceptionCallbacks_ c
      /\ connected_ c' = connected_ c
  end.
Proof.
  destruct op; cbn [step];
    try (unfold_M;
         destruct c as [? ? ? [ctx|] [ch|] ? ? ? ? ? ?]; cbn;
         try destruct (c_flags ctx =? REDIS_DISCONNECTING)%Z; cbn;
         intros; simplify_eq; auto; fail).
  - (* Start *)
    unfold_M. destruct c as [? ? ? [ctx|] ? ? ? ? ? ? ?], fresh; cbn;
      intros; simplify_eq; auto.
  - rewrite onConnect_eq, onDisconnect_eq.
    destruct (status =? REDIS_OK)%Z; intros; simplify_eq; destruct c; cbn; auto.
  - rewrite onDisconnect_eq. intros; simplify_eq; destruct c; cbn; auto.
  - (* HandleResult *)
    destruct (commandCallbacks_ c) as [|k ks] eqn:Hk.
    { unfold_M. rewrite Hk. cbn. intros; simplify_eq. }
    destruct (exceptionCallbacks_ c) as [|e es] eqn:He.
    { unfold_M. rewrite Hk. cbn. destruct c; cbn in *; subst. cbn.
      intros; simplify_eq. }
    destruct result as [reply|].
    { rewrite (handleResult_eq reply c k ks e es Hk He).
      destruct (type reply =? REDIS_REPLY_ERROR)%Z; intros; simplify_eq;
        destruct c; cbn in *; subst; repeat split; auto; done. }
    unfold_M. destruct c; cbn in *; subst. cbn. intros; simplify_eq.
Qed.

Lemma step_tracks op c r c' t pend :
  step op c = (r, c', t) ->
  r <> Undefined ->
  commandCallbacks_ c = map sent_callback pend ->
  exceptionCallbacks_ c = map sent_exceptionCallback pend ->
  commandCallbacks_ c' = map sent_callback (track pend op)
  /\ exceptionCallbacks_ c' = map sent_exceptionCallback (track pend op).
Proof.
  intros Hstep Hr Hk He. pose proof (step_effect op c r c' t Hstep Hr) as H.
  destruct op; cbn [track];
    try (destruct H as (-> & -> & _); auto; fail).
  - destruct H as (-> & -> & _). rewrite !map_app, Hk, He. auto.
  - destruct H as (-> & -> & _). rewrite Hk, He.
    destruct pend; auto.
Qed.

Lemma run_tracks ops : forall c pend k x,
  commandCallbacks_ c = map sent_callback pend ->
  exceptionCallbacks_ c = map sent_exceptionCallback pend ->
  run ops c !! k = Some x ->
  commandCallbacks_ (after x)
  = map sent_callback (fold_left track (take (S k) ops) pend)
  /\ exceptionCallbacks_ (after x)
     = map sent_exceptionCallback (fold_left track (take (S k) ops) pend).
Proof.
  induction ops as [|op ops IH]; intros c pend k x Hk He Hx; [done|].
  cbn [run] in Hx. destruct (step op c) as [[r c'] t] eqn:Hstep.
  pose proof (fun Hr => step_tracks op c r c' t pend Hstep Hr Hk He) as Hr.
  assert (Hcons : r <> Undefined ->
                  ((r, c', t) :: run ops c') !! k = Some x ->
                  commandCallbacks_ (after x)
                  = map sent_callback
                      (fold_left track (take (S k) (op :: ops)) pend)
                  /\ exceptionCallbacks_ (after x)
                     = map sent_exceptionCallback
                         (fold_left track (take (S k) (op :: ops)) pend)).
  { intros Hne Hl. destruct (Hr Hne) as [Hk' He'].
    destruct k as [|k]; cbn in Hl.
    - simplify_eq. cbn. rewrite take_0. auto.
    - cbn [take fold_left]. eapply IH; eauto. }
  destruct r as [[]|ex|]; [apply Hcons; done|apply Hcons; done|done].
Qed.

(** C10.  Start from a connection whose two queues are empty and run any
    operations.  After each one that ran, entry [i] of the success queue is
    the callback, and entry [i] of the failure queue the exception callback,
    of one and the same command: the [i]-th command sent and not yet
    answered.  So the two queues have the same length. *)
Theorem queues_in_lockstep (ops : list Op) (c : RedisConnection)
    (n : nat) (x : Ran) :
  commandCallbacks_ c = [] ->
  exceptionCallbacks_ c = [] ->
  run ops c !! n = Some x ->
  let pending := outstanding (take (S n) ops) in
  commandCallbacks_ (after x) = map sent_callback pending
  /\ exceptionCallbacks_ (after x) = map sent_exceptionCallback pending
  /\ length (commandCallbacks_ (after x))
     = length (exceptionCallbacks_ (after x)).
Proof.
  intros Hk He Hx pending.
  destruct (run_tracks ops c [] n x Hk He Hx) as [H1 H2].
  fold (outstanding (take (S n) ops)) in H1, H2. fold pending in H1, H2.
  rewrite H1, H2, !length_map. auto.
Qed.

(** ** Executions: sends followed by their replies *)

Lemma call_function_defined {A} (f : function A) (a : A) :
  call_function f a <> Undefined.
Proof.
  unfold call_function. destruct f as [k|]; [destruct (call k a)|]; done.
Qed.

Lemma send_eq s c ctx :
  redisContext_ c = Some ctx ->
  step (send s) c
  = (Normal tt,
     with_command (sent_command s)
       (with_exceptionCallbacks
          (exceptionCallbacks_ c ++ [sent_exceptionCallback s])
          (with_commandCallbacks (commandCallbacks_ c ++ [sent_callback s])
             c)),
     [submitted s]).
Proof.
  intros Hctx. destruct c; cbn in Hctx; subst. reflexivity.
Qed.

Lemma final_cons c x l : final c (x :: l) = final (after x) l.
Proof.
  unfold final. cbn [map]. rewrite last_cons.
  destruct (last (map after l)); reflexivity.
Qed.

Lemma final_app c l1 l2 : final c (l1 ++ l2) = final (final c l1) l2.
Proof.
  revert c. induction l1 as [|x l1 IH]; intros c; [reflexivity|].
  cbn [app]. rewrite !final_cons. apply IH.
Qed.

Lemma trace_app l1 l2 : trace (l1 ++ l2) = trace l1 ++ trace l2.
Proof. unfold trace. rewrite map_app. apply concat_app. Qed.

Lemma run_sends cmds : forall c ctx ops,
  redisContext_ c = Some ctx ->
  exists l,
    run (map send cmds ++ ops) c = l ++ run ops (final c l)
    /\ length l = length cmds
    /\ trace l = map submitted cmds
    /\ redisContext_ (final c l) = Some ctx
    /\ commandCallbacks_ (final c l)
       = commandCallbacks_ c ++ map sent_callback cmds
    /\ exceptionCallbacks_ (final c l)
       = exceptionCallbacks_ c ++ map sent_exceptionCallback cmds.
Proof.
  induction cmds as [|s cmds IH]; intros c ctx ops Hctx.
  - exists []. cbn. rewrite !app_nil_r. repeat split; auto.
  - cbn [map app run]. rewrite (send_eq s c ctx Hctx).
    set (c1 := with_command _ _).
    destruct (IH c1 ctx ops) as (l & Hrun & Hlen & Htr & Hc & Hk & He).
    { subst c1. destruct c; exact Hctx. }
    exists ((Normal tt, c1, [submitted s]) :: l).
    rewrite final_cons. cbn [after fst snd].
    rewrite Hrun, Hk, He, Hc. cbn [length app map]. rewrite Hlen.
    unfold trace in *. cbn [map concat calls snd]. rewrite Htr.
    subst c1. destruct c; cbn. rewrite <- !app_assoc. repeat split; auto.
Qed.

Lemma run_replies cmds : forall replies c,
  length replies = length cmds ->
  commandCallbacks_ c = map sent_callback cmds ->
  exceptionCallbacks_ c = map sent_exceptionCallback cmds ->
  let l := run (map deliver replies) c in
  length l = length replies
  /\ trace l = zip_with fired cmds replies
  /\ commandCallbacks_ (final c l) = []
  /\ exceptionCallbacks_ (final c l) = [].
Proof.
  induction cmds as [|s cmds IH]; intros [|r replies] c Hlen Hk He;
    try discriminate; [cbn; auto|].
  cbn [map run step deliver].
  rewrite (handleResult_eq r c _ _ _ _ Hk He).
  set (c1 := with_exceptionCallbacks _ _).
  destruct (IH replies c1) as (H1 & H2 & H3 & H4).
  { cbn in Hlen. lia. }
  { subst c1. destruct c; reflexivity. }
  { subst c1. destruct c; reflexivity. }
  unfold fired at 1. cbn [zip_with].
  destruct (type r =? REDIS_REPLY_ERROR)%Z;
    [destruct (call_function (sent_exceptionCallback s) _) eqn:Hcall
    |destruct (call_function (sent_callback s) _) eqn:Hcall];
    try (exfalso; revert Hcall; apply call_function_defined);
    cbn zeta; rewrite final_cons; cbn [length after fst snd];
    unfold trace in *; cbn [map concat calls snd app];
    rewrite H1, H2; auto.
Qed.

Lemma continuations_submitted cmds :
  continuations (map submitted cmds) = [].
Proof. induction cmds; [reflexivity|assumption]. Qed.

Lemma continuations_fired cmds : forall replies,
  continuations (zip_with fired cmds replies) = zip_with fired cmds replies.
Proof.
  induction cmds as [|s cmds IH]; intros [|r replies]; try reflexivity.
  cbn [zip_with]. unfold continuations in *. cbn [List.filter].
  rewrite IH. unfold fired at 1.
  destruct (type r =? REDIS_REPLY_ERROR)%Z; reflexivity.
Qed.

(** C2.  On a connection that has its engine context and an empty pipeline,
    send [N] commands and then deliver [N] replies.  Every operation runs;
    the calls made are the [N] submissions to the engine followed by exactly
    [N] continuation calls, the [i]-th of them being the continuation of the
    [i]-th command sent, called with the [i]-th reply; and the pipeline is
    empty again. *)
Theorem pipelining_order (cmds : list Sent) (replies : list redisReply)
    (c : RedisConnection) ctx :
  redisContext_ c = Some ctx ->
  commandCallbacks_ c = [] ->
  exceptionCallbacks_ c = [] ->
  length replies = length cmds ->
  let l := run (map send cmds ++ map deliver replies) c in
  length l = length cmds + length replies
  /\ trace l = map submitted cmds ++ zip_with fired cmds replies
  /\ continuations (trace l) = zip_with fired cmds replies
  /\ length (continuations (trace l)) = length cmds
  /\ commandCallbacks_ (final c l) = []
  /\ exceptionCallbacks_ (final c l) = [].
Proof.
  intros Hctx Hk He Hlen l.
  destruct (run_sends cmds c ctx (map deliver replies) Hctx)
    as (l1 & Hrun & Hl1 & Ht1 & _ & Hk1 & He1).
  rewrite Hk in Hk1. rewrite He in He1. cbn [app] in Hk1, He1.
  destruct (run_replies cmds replies (final c l1) Hlen Hk1 He1)
    as (Hl2 & Ht2 & Hk2 & He2).
  assert (Htr : trace l = map submitted cmds ++ zip_with fired cmds replies).
  { subst l. rewrite Hrun, trace_app, Ht1, Ht2. reflexivity. }
  assert (Hcont : continuations (trace l) = zip_with fired cmds replies).
  { rewrite Htr. unfold continuations. rewrite List.filter_app.
    fold (continuations (map submitted cmds)).
    fold (continuations (zip_with fired cmds replies)).
    rewrite continuations_submitted, continuations_fired. reflexivity. }
  repeat split; auto.
  - subst l. rewrite Hrun, length_app, Hl1, Hl2. reflexivity.
  - rewrite Hcont, length_zip_with. lia.
  - subst l. rewrite Hrun, final_app. exact Hk2.
  - subst l. rewrite Hrun, final_app. exact He2.
Qed.

(** ** Executions: the lifecycle state *)

Lemma states_cons op ops c :
  states (op :: ops) c
  = match step op c with
    | (Undefined, _, _) => []
    | (_, c', _) => connected_ c' :: states ops c'
    end.
Proof.
  unfold states. cbn [run].
  destruct (step op c) as [[[] c'] t]; reflexivity.
Qed.

Lemma rank_inj s s' : rank s = rank s' -> s = s'.
Proof. destruct s, s'; cbn; congruence. Qed.

Lemma rank_end s : rank s <= rank kEnd.
Proof. destruct s; cbn; lia. Qed.

(** After a lifecycle callback has been called, the state stays where it is
    or goes to Ended. *)
Lemma states_settled ops : forall c,
  engine_protocol_from false ops = true ->
  Forall (fun s => s = connected_ c \/ s = kEnd) (states ops c)
  /\ StronglySorted no_earlier (states ops c).
Proof.
  induction ops as [|op ops IH]; intros c Hp.
  { split; constructor. }
  rewrite states_cons. destruct (step op c) as [[r c'] t] eqn:Hstep.
  assert (Hgo : r <> Undefined ->
    Forall (fun s => s = connected_ c \/ s = kEnd)
      (connected_ c' :: states ops c')
    /\ StronglySorted no_earlier (connected_ c' :: states ops c')).
  { intros Hr. pose proof (step_effect op c r c' t Hstep Hr) as He.
    assert (Hc' : connected_ c' = connected_ c \/ connected_ c' = kEnd).
    { destruct op; cbn in Hp; try discriminate; intuition. }
    assert (Hp' : engine_protocol_from false ops = true).
    { destruct op; cbn in Hp; try discriminate; exact Hp. }
    destruct (IH c' Hp') as [Hall Hsorted]. split.
    - constructor; [exact Hc'|].
      eapply Forall_impl; [exact Hall|]. cbn. intros s [->| ->]; auto.
    - constructor; [exact Hsorted|].
      eapply Forall_impl; [exact Hall|]. cbn. intros s [->| ->].
      + unfold no_earlier. lia.
      + apply rank_end. }
  destruct r; [apply Hgo; done|apply Hgo; done|split; constructor].
Qed.

(** Until then the state is the initial one. *)
Lemma states_forward ops : forall c,
  connected_ c = kUnconnected ->
  engine_protocol_from true ops = true ->
  StronglySorted no_earlier (states ops c).
Proof.
  induction ops as [|op ops IH]; intros c Hc Hp; [constructor|].
  rewrite states_cons. destruct (step op c) as [[r c'] t] eqn:Hstep.
  assert (Hgo : r <> Undefined ->
    StronglySorted no_earlier (connected_ c' :: states ops c')).
  { intros Hr. pose proof (step_effect op c r c' t Hstep Hr) as He.
    assert (Hrest : StronglySorted no_earlier (states ops c')
                    /\ Forall (no_earlier (connected_ c')) (states ops c')).
    { assert (Hsettled : engine_protocol_from false ops = true ->
                StronglySorted no_earlier (states ops c')
                /\ Forall (no_earlier (connected_ c')) (states ops c')).
      { intros Hp'. destruct (states_settled ops c' Hp') as [Hall Hsorted].
        split; [exact Hsorted|].
        eapply Forall_impl; [exact Hall|]. cbn. intros s [->| ->].
        - unfold no_earlier. lia.
        - apply rank_end. }
      assert (Hsame : connected_ c' = connected_ c ->
                engine_protocol_from true ops = true ->
                StronglySorted no_earlier (states ops c')
                /\ Forall (no_earlier (connected_ c')) (states ops c')).
      { intros Heq Hp'. rewrite Heq, Hc. split.
        - apply IH; [congruence|exact Hp'].
        - apply Forall_forall. intros s _. unfold no_earlier. cbn. lia. }
      destruct op; cbn in Hp;
        first [apply Hsettled; exact Hp | apply Hsame; [tauto|exact Hp]]. }
    constructor; tauto. }
  destruct r; [apply Hgo; done|apply Hgo; done|constructor].
Qed.

Lemma observed_sorted ops c :
  connected_ c = kUnconnected ->
  engine_protocol ops = true ->
  StronglySorted no_earlier (observed ops c).
Proof.
  intros Hc Hp. unfold observed. fold (states ops c). constructor.
  - apply states_forward; assumption.
  - apply Forall_forall. intros s _. rewrite Hc. unfold no_earlier. cbn. lia.
Qed.

Lemma sorted_lookup (l : list ConnectStatus) : forall i j s s',
  StronglySorted no_earlier l ->
  i <= j -> l !! i = Some s -> l !! j = Some s' -> rank s <= rank s'.
Proof.
  induction l as [|x l IH]; intros i j s s' Hs Hij Hi Hj; [done|].
  inversion Hs as [|? ? Hs' Hall]; subst.
  destruct i as [|i], j as [|j]; cbn in Hi, Hj; simplify_eq; try lia.
  - rewrite Forall_forall in Hall. apply Hall.
    eapply list_elem_of_lookup_2. exact Hj.
  - apply (IH i j s s'); [exact Hs'|lia|exact Hi|exact Hj].
Qed.

Ltac solve_sublist :=
  repeat first [apply sublist_nil | apply sublist_skip | apply sublist_cons].

Lemma changes_cons_cons s s' l :
  changes (s :: s' :: l)
  = if decide (s = s') then changes (s' :: l) else s :: changes (s' :: l).
Proof. reflexivity. Qed.

Lemma changes_sublist (l : list ConnectStatus) : forall s,
  StronglySorted no_earlier (s :: l) ->
  changes (s :: l) `sublist_of` drop (rank s) lifecycle.
Proof.
  induction l as [|s' l IH]; intros s Hs.
  - destruct s; cbn; solve_sublist.
  - inversion Hs as [|? ? Hs' Hall]; subst.
    rewrite changes_cons_cons. specialize (IH s' Hs').
    destruct (decide (s = s')) as [->|Hne]; [exact IH|].
    apply Forall_inv in Hall. unfold no_earlier in Hall.
    assert (Hlt : rank s < rank s').
    { destruct (decide (rank s = rank s')) as [Heq|]; [|lia].
      apply rank_inj in Heq. contradiction. }
    transitivity (s :: drop (rank s') lifecycle).
    + apply sublist_skip, IH.
    + clear -Hlt. destruct s, s'; cbn in Hlt; try lia; cbn; solve_sublist.
Qed.

(** Connecting is never entered: from Unconnected the code reaches only
    Connected and Ended. *)
Lemma connecting_never_observed ops : forall c,
  connected_ c <> kConnecting ->
  Forall (fun s => s <> kConnecting) (observed ops c).
Proof.
  unfold observed. intros c Hc. constructor; [exact Hc|].
  fold (states ops c). revert c Hc.
  induction ops as [|op ops IH]; intros c Hc; [constructor|].
  rewrite states_cons. destruct (step op c) as [[r c'] t] eqn:Hstep.
  assert (Hgo : r <> Undefined ->
    Forall (fun s => s <> kConnecting) (connected_ c' :: states ops c')).
  { intros Hr. pose proof (step_effect op c r c' t Hstep Hr) as He.
    assert (Hc' : connected_ c' <> kConnecting).
    { destruct op; intuition congruence. }
    constructor; [exact Hc'|apply IH, Hc']. }
  destruct r; [apply Hgo; done|apply Hgo; done|constructor].
Qed.

(** C3.  Take an execution that starts in state Unconnected and in which the
    engine calls the connect callback at most once and before any disconnect
    callback.  Then the state never moves to an earlier position of
    Unconnected, Connecting, Connected, Ended; the sequence of state changes
    is a subsequence of Unconnected, Connecting, Connected, Ended or of
    Unconnected, Connecting, Ended; and after Ended every later state is
    Ended. *)
Theorem state_moves_forward_only (ops : list Op) (c : RedisConnection) :
  connected_ c = kUnconnected ->
  engine_protocol ops = true ->
  (forall i j s s',
      i <= j ->
      observed ops c !! i = Some s ->
      observed ops c !! j = Some s' ->
      rank s <= rank s')
  /\ (changes (observed ops c) `sublist_of` lifecycle
      \/ changes (observed ops c) `sublist_of` failed_connect)
  /\ (forall i j s',
         i <= j ->
         observed ops c !! i = Some kEnd ->
         observed ops c !! j = Some s' ->
         s' = kEnd).
Proof.
  intros Hc Hp. pose proof (observed_sorted ops c Hc Hp) as Hs.
  split; [|split].
  - intros i j s s' Hij Hi Hj. eapply sorted_lookup; eauto.
  - left. pose proof (changes_sublist _ _ Hs) as H.
    unfold observed. rewrite Hc in H |- *. exact H.
  - intros i j s' Hij Hi Hj.
    pose proof (sorted_lookup _ i j kEnd s' Hs Hij Hi Hj) as H.
    destruct s'; cbn in H; try lia. reflexivity.
Qed.

(** ** Further properties of executions *)

Ltac case_step :=
  repeat (cbn;
    match goal with
    | |- context [match ?x with _ => _ end] =>
        first [ is_var x; destruct x
              | match x with
                | (_ =? _)%Z => destruct x eqn:?
                | negb ?y => destruct y eqn:?
                | call _ _ => destruct x eqn:?
                end ]
    end).

Ltac step_cases op c :=
  destruct op; cbn [step];
  rewrite ?onConnect_eq, ?onDisconnect_eq;
  unfold_M; unfold call_function, teardown, handler_call; destruct c;
  case_step; intros; simplify_eq; cbn in *.

Lemma step_setup op c r c' t :
  step op c = (r, c', t) -> r <> Undefined -> same_setup c c'.
Proof.
  unfold same_setup. revert r c' t.
  step_cases op c; repeat split; reflexivity.
Qed.

Lemma step_context op c r c' t ctx :
  step op c = (r, c', t) -> r <> Undefined ->
  redisContext_ c = Some ctx ->
  exists ctx', redisContext_ c' = Some ctx' /\ c_fd ctx' = c_fd ctx.
Proof.
  revert r c' t. step_cases op c; eauto.
Qed.

Lemma step_channel op c r c' t :
  step op c = (r, c', t) -> r <> Undefined ->
  redisContext_ c <> None ->
  (connected_ c' = connected_ c /\ channel_ c' = channel_ c)
  \/ (connected_ c' = kEnd /\ channel_ c' = None)
  \/ (connected_ c' = kConnected /\ channel_ c' = channel_ c).
Proof.
  revert r c' t. step_cases op c; auto; congruence.
Qed.

Lemma startConnectionInLoop_eq fresh c :
  startConnectionInLoop fresh c
  = match redisContext_ c, fresh with
    | Some _, _ => (Undefined, c, [])
    | None, None =>
        (Undefined, with_redisContext None c,
         [RedisAsyncConnect (toIp (serverAddr_ c)) (toPort (serverAddr_ c))])
    | None, Some ctx =>
        (Normal tt,
         with_channel (Some {| fd := c_fd ctx |})
           (with_redisContext
              (Some {| c_fd := c_fd ctx; c_flags := c_flags ctx;
                       errstr := errstr ctx; ev_data := true |}) c),
         [RedisAsyncConnect (toIp (serverAddr_ c)) (toPort (serverAddr_ c));
          ChannelCreate {| fd := c_fd ctx |};
          ChannelSetReadCallback {| fd := c_fd ctx |};
          ChannelSetWriteCallback {| fd := c_fd ctx |};
          RedisAsyncSetConnectCallback; RedisAsyncSetDisconnectCallback])
    end.
Proof.
  unfold_M. destruct c as [? ? ? [old|] ? ? ? ? ? ? ?], fresh; reflexivity.
Qed.

Lemma step_channel_kept op c r c' t :
  step op c = (r, c', t) -> r <> Undefined ->
  (forall fresh, op <> Start fresh) ->
  channel_ c' = channel_ c \/ channel_ c' = None.
Proof.
  revert r c' t. step_cases op c; auto.
  all: match goal with H : forall _, Start _ <> Start _ |- _ =>
         exfalso; eapply H; reflexivity end.
Qed.

Lemma step_socket op c r c' t :
  step op c = (r, c', t) -> r <> Undefined ->
  socket_bound c = true -> socket_bound c' = true.
Proof.
  intros Hs Hr Hc.
  assert (Hcase : (exists fresh, op = Start fresh)
                  \/ (forall fresh, op <> Start fresh)).
  { destruct op; try (right; discriminate). left. eauto. }
  destruct Hcase as [[fresh ->]|Hop].
  - cbn [step] in Hs. rewrite startConnectionInLoop_eq in Hs.
    destruct (redisContext_ c), fresh; simplify_eq.
    unfold socket_bound. destruct c; cbn. apply Z.eqb_refl.
  - unfold socket_bound in *.
    destruct (step_channel_kept op c r c' t Hs Hr Hop) as [Heq|Heq];
      rewrite Heq; [|reflexivity].
    destruct (channel_ c) as [ch|]; [|reflexivity].
    destruct (redisContext_ c) as [ctx|] eqn:Hctx; [|discriminate].
    destruct (step_context op c r c' t ctx Hs Hr Hctx) as (ctx' & -> & ->).
    exact Hc.
Qed.

Lemma step_calls_count op c r c' t :
  step op c = (r, c', t) -> r <> Undefined ->
  length (continuations t) = if is_reply op then 1 else 0.
Proof.
  revert r c' t. step_cases op c; reflexivity.
Qed.

Lemma run_cons_cases op ops c :
  (fst (fst (step op c)) = Undefined /\ run (op :: ops) c = [])
  \/ (exists r c' t,
        step op c = (r, c', t) /\ r <> Undefined
        /\ run (op :: ops) c = (r, c', t) :: run ops c').
Proof.
  cbn [run]. destruct (step op c) as [[r c'] t]. destruct r.
  - right. exists (Normal a), c', t. repeat split; done.
  - right. exists (Throw e), c', t. repeat split; done.
  - left. split; reflexivity.
Qed.

Lemma run_invariant (P : RedisConnection -> Prop) :
  (forall op c r c' t,
      step op c = (r, c', t) -> r <> Undefined -> P c -> P c') ->
  forall ops c, P c -> Forall (fun x => P (after x)) (run ops c).
Proof.
  intros Hstep. induction ops as [|op ops IH]; intros c Hc; [constructor|].
  destruct (run_cons_cases op ops c)
    as [[_ ->]|(r & c' & t & Hs & Hr & ->)]; [constructor|].
  pose proof (Hstep op c r c' t Hs Hr Hc) as Hc'.
  constructor; [exact Hc'|apply IH, Hc'].
Qed.

Lemma ran_cons op ops c r c' t :
  step op c = (r, c', t) -> r <> Undefined ->
  ran (op :: ops) c = op :: ran ops c'.
Proof.
  intros Hs Hr. unfold ran. cbn [run]. rewrite Hs.
  destruct r; try done; reflexivity.
Qed.

Lemma ran_stop op ops c :
  fst (fst (step op c)) = Undefined -> ran (op :: ops) c = [].
Proof.
  intros Hs. unfold ran. cbn [run].
  destruct (step op c) as [[r c'] t]. cbn in Hs. subst r. reflexivity.
Qed.

Lemma continuations_app t1 t2 :
  continuations (t1 ++ t2) = continuations t1 ++ continuations t2.
Proof. apply List.filter_app. Qed.

Lemma trace_cons x l : trace (x :: l) = calls x ++ trace l.
Proof. reflexivity. Qed.

Lemma answers_cons pend op ops :
  answers pend (op :: ops) = answers pend [op] ++ answers (track pend op) ops.
Proof.
  cbn [answers]. destruct op; try reflexivity.
  destruct result, pend; reflexivity.
Qed.

Lemma step_answers op c r c' t pend :
  step op c = (r, c', t) -> r <> Undefined ->
  commandCallbacks_ c = map sent_callback pend ->
  exceptionCallbacks_ c = map sent_exceptionCallback pend ->
  continuations t = answers pend [op].
Proof.
  intros Hs Hr Hk He. destruct (is_reply op) eqn:Hop.
  - destruct op; try discriminate.
    pose proof (step_effect _ _ _ _ _ Hs Hr) as (_ & _ & Hne & _).
    cbn [step] in Hs.
    destruct pend as [|s pend]; [cbn in Hk; contradiction|].
    destruct result as [reply|].
    + rewrite (handleResult_eq reply c _ _ _ _ Hk He) in Hs.
      cbn [answers]. unfold fired.
      destruct (type reply =? REDIS_REPLY_ERROR)%Z; simplify_eq; reflexivity.
    + exfalso. revert Hs Hr. unfold_M. rewrite Hk. cbn.
      destruct c; cbn in *; subst; cbn. intros; simplify_eq.
  - pose proof (step_calls_count op c r c' t Hs Hr) as Hlen.
    rewrite Hop in Hlen. apply nil_length_inv in Hlen. rewrite Hlen.
    destruct op; try discriminate; reflexivity.
Qed.

(** X1.  The engine context, once stored, is never cleared or replaced by
    another socket: after every operation of any execution the context is
    still there, with the same descriptor. *)
Theorem context_is_kept (ops : list Op) (c : RedisConnection) ctx :
  redisContext_ c = Some ctx ->
  Forall (fun x => exists ctx',
              redisContext_ (after x) = Some ctx' /\ c_fd ctx' = c_fd ctx)
    (run ops c).
Proof.
  intros Hctx.
  apply (run_invariant
           (fun c => exists ctx',
                redisContext_ c = Some ctx' /\ c_fd ctx' = c_fd ctx)).
  - intros op c0 r c' t Hs Hr (ctx0 & H0 & Hfd).
    destruct (step_context op c0 r c' t ctx0 Hs Hr H0) as (ctx' & H' & Hfd').
    exists ctx'. split; [exact H'|congruence].
  - eauto.
Qed.

(** X2.  A connection is started once.  On a connection that has its
    context, [startConnectionInLoop] fails its assertion, so whatever
    operations come first, a later start and everything after it do not
    run. *)
Theorem start_runs_once (ops1 ops2 : list Op) (c : RedisConnection) ctx
    fresh :
  redisContext_ c = Some ctx ->
  run (ops1 ++ Start fresh :: ops2) c = run ops1 c.
Proof.
  revert c ctx. induction ops1 as [|op ops1 IH]; intros c ctx Hctx.
  - cbn [app run step]. rewrite startConnectionInLoop_eq, Hctx. reflexivity.
  - cbn [app run]. destruct (step op c) as [[r c'] t] eqn:Hs.
    assert (Hgo : r <> Undefined ->
                  run (ops1 ++ Start fresh :: ops2) c' = run ops1 c').
    { intros Hr.
      destruct (step_context op c r c' t ctx Hs Hr Hctx) as (ctx' & H' & _).
      apply (IH c' ctx' H'). }
    destruct r; [rewrite Hgo by done|rewrite Hgo by done|]; reflexivity.
Qed.

(** X3.  In every execution the channel, while it exists, is the one over
    the descriptor of the engine context. *)
Theorem channel_is_over_context_socket (ops : list Op)
    (c : RedisConnection) :
  socket_bound c = true ->
  Forall (fun x => socket_bound (after x) = true) (run ops c).
Proof.
  apply (run_invariant (fun c => socket_bound c = true)). apply step_socket.
Qed.

(** X4.  After the disconnect callback the channel is gone, and each of the
    four interest hooks dereferences it: undefined behaviour, with no call
    made. *)
Theorem hooks_after_disconnect (status : Z) (c : RedisConnection) :
  let c' := after (onDisconnect status c) in
  channel_ c' = None
  /\ addWrite c' = (Undefined, c', [])
  /\ delWrite c' = (Undefined, c', [])
  /\ addRead c' = (Undefined, c', [])
  /\ delRead c' = (Undefined, c', []).
Proof.
  rewrite onDisconnect_eq. unfold after. cbn [fst snd].
  destruct c; repeat split; reflexivity.
Qed.

(** X5.  On a started connection, Ended and a live channel exclude each
    other for good: if that holds at the start of an execution, then after
    every operation a connection in state Ended has no channel. *)
Theorem ended_has_no_channel (ops : list Op) (c : RedisConnection) ctx :
  redisContext_ c = Some ctx ->
  (connected_ c = kEnd -> channel_ c = None) ->
  Forall (fun x => connected_ (after x) = kEnd -> channel_ (after x) = None)
    (run ops c).
Proof.
  intros Hctx Hc.
  eapply Forall_impl;
    [apply (run_invariant
              (fun c => redisContext_ c <> None
                        /\ (connected_ c = kEnd -> channel_ c = None)))|].
  - intros op c0 r c' t Hs Hr [Hctx0 Himp]. split.
    + destruct (redisContext_ c0) as [ctx0|] eqn:E; [|done].
      destruct (step_context op c0 r c' t ctx0 Hs Hr E) as (ctx' & -> & _).
      done.
    + destruct (step_channel op c0 r c' t Hs Hr Hctx0)
        as [[H1 H2]|[[H1 H2]|[H1 H2]]]; intros Hend.
      * rewrite H2. apply Himp. congruence.
      * exact H2.
      * congruence.
  - split; [congruence|exact Hc].
  - cbn. intros x [_ H]. exact H.
Qed.

(** X6.  [handleDisconnect] is idempotent: run on the connection it has
    left, it changes nothing and makes no call. *)
Theorem handleDisconnect_idempotent (c : RedisConnection) :
  handleDisconnect (after (handleDisconnect c))
  = (Normal tt, after (handleDisconnect c), []).
Proof.
  rewrite !handleDisconnect_eq. unfold after. cbn [fst snd].
  destruct c; reflexivity.
Qed.

(** X7.  The on-writable handler removes the channel from the loop but keeps
    the member set.  So when the disconnect callback follows, the same
    channel has its subscriptions disabled and is removed a second time
    before it is released. *)
Theorem writable_then_disconnect_removes_twice (status : Z)
    (c : RedisConnection) ctx ch :
  redisContext_ c = Some ctx ->
  c_flags ctx = REDIS_DISCONNECTING ->
  channel_ c = Some ch ->
  trace (run [HandleRedisWrite; OnDisconnect status] c)
  = [ChannelDisableAll ch; ChannelRemove ch; RedisAsyncHandleWrite;
     ChannelDisableAll ch; ChannelRemove ch; ChannelDestroy ch]
    ++ match disconnectCallback_ c with
       | Some h => [CallDisconnectCallback (Some h) status]
       | None => []
       end.
Proof.
  intros Hctx Hf Hch.
  assert (Hw : handleRedisWrite c
               = (Normal tt, c,
                  [ChannelDisableAll ch; ChannelRemove ch;
                   RedisAsyncHandleWrite])).
  { unfold_M. rewrite Hctx. cbn. apply Z.eqb_eq in Hf.
    rewrite Hf, Hch. reflexivity. }
  cbn [run step]. rewrite Hw, onDisconnect_eq.
  unfold teardown, handler_call. rewrite Hch.
  destruct (disconnectCallback_ c) as [h|]; cbn;
    [destruct (call h status)|]; reflexivity.
Qed.

Lemma run_answers ops : forall c pend,
  commandCallbacks_ c = map sent_callback pend ->
  exceptionCallbacks_ c = map sent_exceptionCallback pend ->
  continuations (trace (run ops c)) = answers pend (ran ops c).
Proof.
  induction ops as [|op ops IH]; intros c pend Hk He; [reflexivity|].
  destruct (run_cons_cases op ops c)
    as [[Hu Hrun]|(r & c' & t & Hs & Hr & Hrun)]; rewrite Hrun.
  - rewrite (ran_stop op ops c Hu). reflexivity.
  - rewrite (ran_cons op ops c r c' t Hs Hr), trace_cons, continuations_app.
    rewrite answers_cons. cbn [calls snd].
    rewrite (step_answers op c r c' t pend Hs Hr Hk He).
    destruct (step_tracks op c r c' t pend Hs Hr Hk He) as [Hk' He'].
    rewrite (IH c' _ Hk' He'). reflexivity.
Qed.

(** X8.  Replies are matched first in, first out, however sends and replies
    interleave.  From an empty pipeline the continuation calls of an
    execution are exactly these, in order: for each reply that ran, the
    continuation of the oldest command outstanding at that moment, the
    failure one with the reply's text for an error reply and the success one
    with the reply otherwise. *)
Theorem replies_answer_oldest (ops : list Op) (c : RedisConnection) :
  commandCallbacks_ c = [] ->
  exceptionCallbacks_ c = [] ->
  continuations (trace (run ops c)) = answers [] (ran ops c).
Proof.
  intros Hk He. apply (run_answers ops c [] Hk He).
Qed.

(** X9.  Whatever the connection was at the start, each reply that ran made
    exactly one continuation call, and no other operation made any: the
    number of continuation calls of an execution is the number of replies
    among the operations that ran. *)
Theorem one_continuation_per_reply (ops : list Op) (c : RedisConnection) :
  length (continuations (trace (run ops c))) = replies (ran ops c).
Proof.
  revert c. induction ops as [|op ops IH]; intros c; [reflexivity|].
  destruct (run_cons_cases op ops c)
    as [[Hu Hrun]|(r & c' & t & Hs & Hr & Hrun)]; rewrite Hrun.
  - rewrite (ran_stop op ops c Hu). reflexivity.
  - rewrite (ran_cons op ops c r c' t Hs Hr), trace_cons, continuations_app.
    rewrite length_app, IH. cbn [calls snd].
    rewrite (step_calls_count op c r c' t Hs Hr).
    unfold replies. cbn [List.filter].
    destruct (is_reply op); reflexivity.
Qed.

(** X11.  The depth of the pipeline is what was sent minus what was
    answered: at the end of any execution, each queue has as many entries
    as it had at the start, plus the sends that ran, minus the replies that
    ran. *)
Theorem pipeline_depth (ops : list Op) (c : RedisConnection) :
  length (commandCallbacks_ (final c (run ops c))) + replies (ran ops c)
  = length (commandCallbacks_ c) + sends (ran ops c)
  /\ length (exceptionCallbacks_ (final c (run ops c))) + replies (ran ops c)
     = length (exceptionCallbacks_ c) + sends (ran ops c).
Proof.
  revert c. induction ops as [|op ops IH]; intros c; [cbn; lia|].
  destruct (run_cons_cases op ops c)
    as [[Hu Hrun]|(r & c' & t & Hs & Hr & Hrun)]; rewrite Hrun.
  - rewrite (ran_stop op ops c Hu). cbn. lia.
  - rewrite (ran_cons op ops c r c' t Hs Hr), final_cons.
    cbn [after fst snd]. destruct (IH c') as [IH1 IH2].
    pose proof (step_effect op c r c' t Hs Hr) as He.
    unfold replies, sends in *. cbn [List.filter].
    destruct op; cbn [is_reply is_send length];
      try (destruct He as (Hk & Hx & _); rewrite Hk, Hx in *; lia).
    + destruct He as (Hk & Hx & _). rewrite Hk, Hx, !length_app in *.
      cbn [length] in *. lia.
    + destruct He as (Hk & Hx & Hnk & Hnx & _).
      destruct (commandCallbacks_ c) as [|k ks]; [done|].
      destruct (exceptionCallbacks_ c) as [|e es]; [done|].
      cbn [tail] in Hk, Hx. rewrite Hk, Hx in *. cbn [length]. lia.
Qed.

(** X12.  Only the engine's two lifecycle callbacks write the state: in an
    execution without them (sends, replies, readiness events, hooks, the
    loop side of [disconnect]) the state stays what it was. *)
Theorem state_written_only_by_lifecycle_callbacks (ops : list Op)
    (c : RedisConnection) :
  existsb is_lifecycle_callback ops = false ->
  Forall (fun s => s = connected_ c) (observed ops c).
Proof.
  intros Hops. unfold observed. constructor; [reflexivity|].
  fold (states ops c). revert c Hops.
  induction ops as [|op ops IH]; intros c Hops; [constructor|].
  cbn [existsb] in Hops. apply orb_false_iff in Hops as [Hop Hops].
  rewrite states_cons. destruct (step op c) as [[r c'] t] eqn:Hs.
  assert (Hgo : r <> Undefined ->
    Forall (fun s => s = connected_ c) (connected_ c' :: states ops c')).
  { intros Hr. pose proof (step_effect op c r c' t Hs Hr) as He.
    assert (Hc' : connected_ c' = connected_ c).
    { destruct op; try discriminate; intuition. }
    rewrite <- Hc'. constructor; [reflexivity|apply IH, Hops]. }
  destruct r; [apply Hgo; done|apply Hgo; done|constructor].
Qed.

(** X13.  No operation assigns the server address, the password, the loop
    or either lifecycle handler: after every operation of any execution
    they are what they were at the start. *)
Theorem setup_is_never_assigned (ops : list Op) (c : RedisConnection) :
  Forall (fun x => same_setup c (after x)) (run ops c).
Proof.
  apply (run_invariant (same_setup c)).
  - intros op c0 r c' t Hs Hr H0.
    pose proof (step_setup op c0 r c' t Hs Hr) as H1.
    unfold same_setup in *. intuition congruence.
  - unfold same_setup. auto.
Qed.

(** X14.  The disconnect callback, from any state: the state becomes Ended;
    the channel, if there is one, has its subscriptions disabled, is removed
    and released; then the disconnect handler, if set, is called once with
    the engine's status, and the callback ends the way the handler does.
    The connect handler is not called, and the queues and every other
    member stay as they were. *)
Theorem onDisconnect_outcome (status : Z) (c : RedisConnection) :
  let '(r, c', t) := onDisconnect status c in
  c' = with_channel None (with_connected kEnd c)
  /\ t = match channel_ c with
         | Some ch =>
             [ChannelDisableAll ch; ChannelRemove ch; ChannelDestroy ch]
         | None => []
         end
         ++ match disconnectCallback_ c with
            | Some h => [CallDisconnectCallback (Some h) status]
            | None => []
            end
  /\ r = match disconnectCallback_ c with
         | Some h => match call h status with
                     | Returns => Normal tt
                     | Throws e => Throw e
                     end
         | None => Normal tt
         end
  /\ List.filter is_connect_call t = []
  /\ continuations t = [].
Proof.
  rewrite onDisconnect_eq. unfold teardown, handler_call, call_function.
  destruct (channel_ c), (disconnectCallback_ c); cbn; auto.
Qed.

(** X16.  A successful start leaves a usable bridge.  On a connection
    without a context, when the engine returns one, the start creates the
    channel over the context's descriptor and leaves the state as it was;
    from then on each of the four interest hooks is exactly one
    subscription change on that channel and changes nothing in the
    connection. *)
Theorem hooks_after_start (c : RedisConnection) ctx :
  redisContext_ c = None ->
  let c' := after (startConnectionInLoop (Some ctx) c) in
  let ch := {| fd := c_fd ctx |} in
  fst (fst (startConnectionInLoop (Some ctx) c)) = Normal tt
  /\ channel_ c' = Some ch
  /\ connected_ c' = connected_ c
  /\ addWrite c' = (Normal tt, c', [ChannelEnableWriting ch])
  /\ delWrite c' = (Normal tt, c', [ChannelDisableWriting ch])
  /\ addRead c' = (Normal tt, c', [ChannelEnableReading ch])
  /\ delRead c' = (Normal tt, c', [ChannelDisableReading ch]).
Proof.
  intros Hctx. rewrite startConnectionInLoop_eq, Hctx. unfold after.
  cbn [fst snd]. destruct c; repeat split; reflexivity.
Qed.

End Hiredis.

(** ** The definitions at work, with hiredis' values of the constants:
       [REDIS_OK] is 0, [REDIS_DISCONNECTING] is 4, [REDIS_REPLY_ERROR] is 6 *)

Example session_states :
  observed 0 4 6 session fresh_conn
  = [kUnconnected; kUnconnected; kUnconnected; kUnconnected; kConnected;
     kConnected; kConnected; kConnected; kConnected; kConnected; kConnected;
     kConnected; kEnd]
  /\ changes (observed 0 4 6 session fresh_conn)
     = [kUnconnected; kConnected; kEnd].
Proof. split; reflexivity. Qed.

Example session_calls :
  trace (run 0 4 6 session fresh_conn)
  = [RedisAsyncConnect "127.0.0.1" 6379;
     ChannelCreate {| fd := 7 |};
     ChannelSetReadCallback {| fd := 7 |};
     ChannelSetWriteCallback {| fd := 7 |};
     RedisAsyncSetConnectCallback; RedisAsyncSetDisconnectCallback;
     ChannelEnableWriting {| fd := 7 |};
     RedisAsyncHandleWrite;
     CallConnectCallback (quiet 1) 0;
     RedisAsyncFormattedCommand "GET a" 5;
     RedisAsyncHandleWrite; RedisAsyncHandleRead;
     CallCommandCallback (quiet 10) (RedisResultImpl reply_ok);
     RedisAsyncDisconnect;
     RedisAsyncHandleWrite;
     ChannelDisableAll {| fd := 7 |}; ChannelRemove {| fd := 7 |};
     ChannelDestroy {| fd := 7 |};
     CallDisconnectCallback (quiet 2) 0].
Proof. reflexivity. Qed.

(** A connection as constructed is Unconnected and has an empty pipeline. *)
Example new_connection :
  connected_ (RedisConnection_new server "" 0) = kUnconnected
  /\ commandCallbacks_ (RedisConnection_new server "" 0) = []
  /\ exceptionCallbacks_ (RedisConnection_new server "" 0) = []
  /\ changes (observed 0 4 6 session (RedisConnection_new server "" 0))
     = [kUnconnected; kConnected; kEnd].
Proof. repeat split; reflexivity. Qed.

(** A failed connect: the disconnect handler is the one called. *)
Example failed_connect_calls :
  onConnect 0 (-1) started_conn
  = (Normal tt, ended_conn,
     [ChannelDisableAll {| fd := 7 |}; ChannelRemove {| fd := 7 |};
      ChannelDestroy {| fd := 7 |}; CallDisconnectCallback (quiet 2) (-1)]).
Proof. reflexivity. Qed.

(** A reply with nothing pending is [front()] on an empty queue. *)
Example handleResult_empty_pipeline :
  handleResult 6 (Some reply_ok) started_conn = (Undefined, started_conn, []).
Proof. reflexivity. Qed.

(** A null reply is dereferenced after both queues have been popped. *)
Example handleResult_null_reply :
  handleResult 6 None busy_conn
  = (Undefined,
     with_exceptionCallbacks [quiet 21]
       (with_commandCallbacks [quiet 11] busy_conn), []).
Proof. reflexivity. Qed.

(** The success branch of the connect callback has no guard of its own:
    called after a failed connect it would write Connected over Ended.  The
    engine does not make that call. *)
Example connect_callback_is_unguarded :
  observed 0 4 6 [OnConnect (-1); OnConnect 0] started_conn
  = [kUnconnected; kEnd; kConnected]
  /\ engine_protocol [OnConnect (-1); OnConnect 0] = false.
Proof. split; reflexivity. Qed.

(** ** The theorems at concrete inputs *)

Lemma handleResult_dispatch_witness :
  commandCallbacks_ busy_conn = failing 10 :: [quiet 11]
  /\ exceptionCallbacks_ busy_conn = quiet 20 :: [quiet 21]
  /\ let x := handleResult 6 (Some reply_err) busy_conn in
     commandCallbacks_ (after x) = [quiet 11]
     /\ exceptionCallbacks_ (after x) = [quiet 21]
     /\ after x
        = with_exceptionCallbacks [quiet 21]
            (with_commandCallbacks [quiet 11] busy_conn)
     /\ calls x
        = [CallExceptionCallback (quiet 20)
             (runtime_error "ERR wrong number of arguments")]
     /\ fst (fst x) = Normal tt.
Proof.
  split; [reflexivity|]. split; [reflexivity|].
  exact (handleResult_dispatch 6 reply_err busy_conn
           (failing 10) [quiet 11] (quiet 20) [quiet 21] eq_refl eq_refl).
Defined.

Lemma pipelining_order_witness :
  redisContext_ started_conn
  = Some {| c_fd := 7; c_flags := 0; errstr := ""; ev_data := true |}
  /\ commandCallbacks_ started_conn = []
  /\ exceptionCallbacks_ started_conn = []
  /\ length [reply_ok; reply_err; reply_ok] = length [get_a; get_b; get_c]
  /\ let l := run 0 4 6
                (map send [get_a; get_b; get_c]
                 ++ map deliver [reply_ok; reply_err; reply_ok])
                started_conn in
     length l = 3 + 3
     /\ trace l
        = [RedisAsyncFormattedCommand "GET a" 5;
           RedisAsyncFormattedCommand "GET" 3;
           RedisAsyncFormattedCommand "GET c" 5;
           CallCommandCallback (quiet 10) (RedisResultImpl reply_ok);
           CallExceptionCallback (quiet 21)
             (runtime_error "ERR wrong number of arguments");
           CallCommandCallback (failing 12) (RedisResultImpl reply_ok)]
     /\ continuations (trace l)
        = [CallCommandCallback (quiet 10) (RedisResultImpl reply_ok);
           CallExceptionCallback (quiet 21)
             (runtime_error "ERR wrong number of arguments");
           CallCommandCallback (failing 12) (RedisResultImpl reply_ok)]
     /\ length (continuations (trace l)) = 3
     /\ commandCallbacks_ (final started_conn l) = []
     /\ exceptionCallbacks_ (final started_conn l) = [].
Proof.
  do 4 (split; [reflexivity|]).
  exact (pipelining_order 0 4 6 [get_a; get_b; get_c]
           [reply_ok; reply_err; reply_ok] started_conn _
           eq_refl eq_refl eq_refl eq_refl).
Defined.

Lemma state_moves_forward_only_witness :
  connected_ fresh_conn = kUnconnected
  /\ engine_protocol session = true
  /\ (forall i j s s',
         i <= j ->
         observed 0 4 6 session fresh_conn !! i = Some s ->
         observed 0 4 6 session fresh_conn !! j = Some s' ->
         rank s <= rank s')
  /\ (changes (observed 0 4 6 session fresh_conn) `sublist_of` lifecycle
      \/ changes (observed 0 4 6 session fresh_conn)
         `sublist_of` failed_connect)
  /\ (forall i j s',
         i <= j ->
         observed 0 4 6 session fresh_conn !! i = Some kEnd ->
         observed 0 4 6 session fresh_conn !! j = Some s' ->
         s' = kEnd).
Proof.
  split; [reflexivity|]. split; [reflexivity|].
  exact (state_moves_forward_only 0 4 6 session fresh_conn eq_refl eq_refl).
Defined.

Lemma lifecycle_callbacks_after_end_witness :
  connected_ ended_conn = kEnd
  /\ channel_ ended_conn = None
  /\ after (onDisconnect (-1) ended_conn) = ended_conn
  /\ calls (onDisconnect (-1) ended_conn)
     = [CallDisconnectCallback (quiet 2) (-1)]
  /\ onConnect 0 (-1) ended_conn = onDisconnect (-1) ended_conn.
Proof.
  split; [reflexivity|]. split; [reflexivity|].
  destruct (lifecycle_callbacks_after_end 0 (-1) ended_conn eq_refl eq_refl)
    as (H1 & H2 & H3).
  split; [exact H1|]. split; [exact H2|].
  apply H3. discriminate.
Defined.

Lemma handleRedisWrite_order_witness :
  redisContext_ closing_conn
  = Some {| c_fd := 7; c_flags := 4; errstr := ""; ev_data := true |}
  /\ channel_ closing_conn = Some {| fd := 7 |}
  /\ handleRedisWrite 4 closing_conn
     = (Normal tt, closing_conn,
        [ChannelDisableAll {| fd := 7 |}; ChannelRemove {| fd := 7 |};
         RedisAsyncHandleWrite])
  /\ redisContext_ started_conn
     = Some {| c_fd := 7; c_flags := 0; errstr := ""; ev_data := true |}
  /\ handleRedisWrite 4 started_conn
     = (Normal tt, started_conn, [RedisAsyncHandleWrite]).
Proof.
  split; [reflexivity|]. split; [reflexivity|].
  split.
  { apply (proj1 (handleRedisWrite_order 4 closing_conn _ eq_refl));
      reflexivity. }
  split; [reflexivity|].
  apply (proj2 (handleRedisWrite_order 4 started_conn _ eq_refl)).
  discriminate.
Defined.

Lemma handleRedisWrite_ignores_disconnecting_bit_witness :
  redisContext_ draining_conn
  = Some {| c_fd := 7; c_flags := 6; errstr := ""; ev_data := true |}
  /\ Z.land 6 4 = 4%Z
  /\ 6%Z <> 4%Z
  /\ channel_ draining_conn = Some {| fd := 7 |}
  /\ handleRedisWrite 4 draining_conn
     = (Normal tt, draining_conn, [RedisAsyncHandleWrite])
  /\ List.filter
       (fun e => match e with
                 | ChannelDisableAll _ | ChannelRemove _ => true
                 | _ => false
                 end)
       (snd (handleRedisWrite 4 draining_conn)) = [].
Proof.
  split; [reflexivity|]. split; [reflexivity|]. split; [discriminate|].
  split; [reflexivity|].
  apply (handleRedisWrite_ignores_disconnecting_bit 4 draining_conn _
           eq_refl eq_refl).
  discriminate.
Defined.

Lemma handleResult_fault_isolated_witness :
  commandCallbacks_ busy_conn = failing 10 :: [quiet 11]
  /\ exceptionCallbacks_ busy_conn = quiet 20 :: [quiet 21]
  /\ fst (fst (handleResult 6 (Some reply_ok) busy_conn))
     = Throw (runtime_error "boom")
  /\ let popped := with_exceptionCallbacks [quiet 21]
                     (with_commandCallbacks [quiet 11] busy_conn) in
     handleResult 6 (Some reply_ok) busy_conn
     = invoke CallCommandCallback (failing 10) (RedisResultImpl reply_ok)
         popped
     /\ after (handleResult 6 (Some reply_ok) busy_conn) = popped
     /\ commandCallbacks_ (after (handleResult 6 (Some reply_ok) busy_conn))
        = [quiet 11]
     /\ exceptionCallbacks_ (after (handleResult 6 (Some reply_ok) busy_conn))
        = [quiet 21]
     /\ forall k' e',
          after (handleResult 6 (Some reply_ok)
                   (with_exceptionCallbacks (e' :: [quiet 21])
                      (with_commandCallbacks (k' :: [quiet 11]) busy_conn)))
          = after (handleResult 6 (Some reply_ok) busy_conn).
Proof.
  do 3 (split; [reflexivity|]).
  exact (handleResult_fault_isolated 6 reply_ok busy_conn
           (failing 10) [quiet 11] (quiet 20) [quiet 21] eq_refl eq_refl).
Defined.

Lemma queues_in_lockstep_witness :
  commandCallbacks_ started_conn = []
  /\ exceptionCallbacks_ started_conn = []
  /\ run 0 4 6 [send get_a; send get_b; deliver reply_ok] started_conn
       !! 2
     = Some (Normal tt,
             with_command "GET"
               (with_exceptionCallbacks [quiet 21]
                  (with_commandCallbacks [quiet 11] started_conn)),
             [CallCommandCallback (quiet 10) (RedisResultImpl reply_ok)])
  /\ outstanding [send get_a; send get_b; deliver reply_ok] = [get_b]
  /\ let x := (Normal tt,
               with_command "GET"
                 (with_exceptionCallbacks [quiet 21]
                    (with_commandCallbacks [quiet 11] started_conn)),
               [CallCommandCallback (quiet 10) (RedisResultImpl reply_ok)])
     in
     commandCallbacks_ (after x) = map sent_callback [get_b]
     /\ exceptionCallbacks_ (after x) = map sent_exceptionCallback [get_b]
     /\ length (commandCallbacks_ (after x))
        = length (exceptionCallbacks_ (after x)).
Proof.
  do 4 (split; [reflexivity|]).
  exact (queues_in_lockstep 0 4 6
           [send get_a; send get_b; deliver reply_ok] started_conn 2 _
           eq_refl eq_refl eq_refl).
Defined.

(** The lifecycle callbacks are not no-ops after Ended: on an ended
    connection with a disconnect handler set, the disconnect callback calls
    that handler. *)
Lemma lifecycle_callbacks_call_handler_after_end :
  connected_ ended_conn = kEnd
  /\ channel_ ended_conn = None
  /\ onDisconnect 0 ended_conn
     = (Normal tt, ended_conn, [CallDisconnectCallback (quiet 2) 0])
  /\ ~ (forall status c,
          connected_ c = kEnd ->
          onDisconnect status c = (Normal tt, c, [])
          /\ onConnect 0 status c = (Normal tt, c, [])).
Proof.
  split; [reflexivity|]. split; [reflexivity|]. split; [reflexivity|].
  intros H. destruct (H 0%Z ended_conn eq_refl) as [H1 _]. discriminate H1.
Qed.

(** ** The further properties at concrete inputs *)

Lemma context_is_kept_witness :
  redisContext_ started_conn
  = Some {| c_fd := 7; c_flags := 0; errstr := ""; ev_data := true |}
  /\ Forall (fun x => exists ctx',
                 redisContext_ (after x) = Some ctx' /\ c_fd ctx' = 7%Z)
       (run 0 4 6 [send get_a; EngineFlags 6; OnDisconnect 0] started_conn).
Proof.
  split; [reflexivity|].
  exact (context_is_kept 0 4 6 [send get_a; EngineFlags 6; OnDisconnect 0]
           started_conn _ eq_refl).
Defined.

Lemma start_runs_once_witness :
  redisContext_ started_conn
  = Some {| c_fd := 7; c_flags := 0; errstr := ""; ev_data := true |}
  /\ run 0 4 6 ([send get_a; OnDisconnect 0] ++ Start (Some context0)
                  :: [AddWrite]) started_conn
     = run 0 4 6 [send get_a; OnDisconnect 0] started_conn.
Proof.
  split; [reflexivity|].
  exact (start_runs_once 0 4 6 [send get_a; OnDisconnect 0] [AddWrite]
           started_conn _ (Some context0) eq_refl).
Defined.

Lemma channel_is_over_context_socket_witness :
  socket_bound fresh_conn = true
  /\ Forall (fun x => socket_bound (after x) = true)
       (run 0 4 6 session fresh_conn).
Proof.
  split; [reflexivity|].
  exact (channel_is_over_context_socket 0 4 6 session fresh_conn eq_refl).
Defined.

Lemma ended_has_no_channel_witness :
  redisContext_ ended_conn
  = Some {| c_fd := 7; c_flags := 0; errstr := ""; ev_data := true |}
  /\ (connected_ ended_conn = kEnd -> channel_ ended_conn = None)
  /\ Forall (fun x => connected_ (after x) = kEnd ->
                      channel_ (after x) = None)
       (run 0 4 6 [HandleRedisRead; OnDisconnect 0; send get_a] ended_conn).
Proof.
  split; [reflexivity|]. split; [intros _; reflexivity|].
  exact (ended_has_no_channel 0 4 6
           [HandleRedisRead; OnDisconnect 0; send get_a] ended_conn _
           eq_refl (fun _ => eq_refl)).
Defined.

Lemma writable_then_disconnect_removes_twice_witness :
  redisContext_ closing_conn
  = Some {| c_fd := 7; c_flags := 4; errstr := ""; ev_data := true |}
  /\ channel_ closing_conn = Some {| fd := 7 |}
  /\ trace (run 0 4 6 [HandleRedisWrite; OnDisconnect 0] closing_conn)
     = [ChannelDisableAll {| fd := 7 |}; ChannelRemove {| fd := 7 |};
        RedisAsyncHandleWrite;
        ChannelDisableAll {| fd := 7 |}; ChannelRemove {| fd := 7 |};
        ChannelDestroy {| fd := 7 |};
        CallDisconnectCallback (quiet 2) 0].
Proof.
  split; [reflexivity|]. split; [reflexivity|].
  exact (writable_then_disconnect_removes_twice 0 4 6 0 closing_conn _ _
           eq_refl eq_refl eq_refl).
Defined.

Lemma replies_answer_oldest_witness :
  commandCallbacks_ started_conn = []
  /\ exceptionCallbacks_ started_conn = []
  /\ continuations (trace (run 0 4 6 interleaved started_conn))
     = [CallCommandCallback (quiet 10) (RedisResultImpl reply_ok);
        CallExceptionCallback (quiet 21)
          (runtime_error "ERR wrong number of arguments");
        CallCommandCallback (failing 12) (RedisResultImpl reply_ok)].
Proof.
  split; [reflexivity|]. split; [reflexivity|].
  exact (replies_answer_oldest 0 4 6 interleaved started_conn
           eq_refl eq_refl).
Defined.

Lemma state_written_only_by_lifecycle_callbacks_witness :
  existsb is_lifecycle_callback
    [send get_a; HandleRedisWrite; deliver reply_ok; DisconnectInLoop]
  = false
  /\ Forall (fun s => s = kUnconnected)
       (observed 0 4 6
          [send get_a; HandleRedisWrite; deliver reply_ok; DisconnectInLoop]
          started_conn).
Proof.
  split; [reflexivity|].
  exact (state_written_only_by_lifecycle_callbacks 0 4 6
           [send get_a; HandleRedisWrite; deliver reply_ok; DisconnectInLoop]
           started_conn eq_refl).
Defined.

Lemma hooks_after_start_witness :
  redisContext_ fresh_conn = None
  /\ let c' := after (startConnectionInLoop (Some context0) fresh_conn) in
     let ch := {| fd := 7 |} in
     fst (fst (startConnectionInLoop (Some context0) fresh_conn)) = Normal tt
     /\ channel_ c' = Some ch
     /\ connected_ c' = kUnconnected
     /\ addWrite c' = (Normal tt, c', [ChannelEnableWriting ch])
     /\ delWrite c' = (Normal tt, c', [ChannelDisableWriting ch])
     /\ addRead c' = (Normal tt, c', [ChannelEnableReading ch])
     /\ delRead c' = (Normal tt, c', [ChannelDisableReading ch]).
Proof.
  split; [reflexivity|].
  exact (hooks_after_start fresh_conn context0 eq_refl).
Defined.
